(** * src/include/common.hpp: the compiler-utility header, as a preprocessor program

    The header is a sequence of preprocessing directives.  Its meaning is
    what a C/C++ preprocessor does with it: which macros it leaves in the
    macro table of the translation unit that includes it, and what an
    invocation of each of these macros is replaced by.  The development
    therefore has three layers:

    - [Cpp]: the directive interpreter (conditional stack, macro table,
      include-once set, diagnostics) and the macro expander (argument
      collection, parameter substitution with the GNU comma-swallowing
      paste, rescanning with hide sets);
    - [Header]: the text of common.hpp, line by line;
    - [CSem]: a small expression/statement semantics, used for the claims
      that speak about the value or the effect of an expanded macro. *)

From stdpp Require Import gmap strings list fin_maps.
From Stdlib Require Import ZArith Lia.

Open Scope Z_scope.
Open Scope string_scope.
Open Scope list_scope.

#[global] Set Warnings "-clear-no-such-hyp,-register-all".

(* ===================================================================== *)
(** ** Preprocessing tokens and macro definitions                         *)
(* ===================================================================== *)

Module Cpp.

(** Punctuators that play a role in directives and macro replacement are
    named; every other operator is carried by its spelling. *)
Inductive punct : Type :=
| LParen | RParen | Comma | Bang | Semi | Hash | HashHash
| Op (spelling : string).

(** Tokens by their spelling.  [Number n] is the integer constant
    written as the decimal notation of [n] without suffix ([64], [0]);
    every other preprocessing number ([0x40], [64u], [1e3]) is a
    [PPNumber] with its spelling. *)
Inductive token : Type :=
| Ident (name : string)
| Number (value : Z)
| StrLit (chars : string)
| Punct (p : punct)
| PPNumber (spelling : string).

#[global] Instance punct_eq_dec : EqDecision punct.
Proof. solve_decision. Defined.
#[global] Instance token_eq_dec : EqDecision token.
Proof. solve_decision. Defined.

(** The variable-argument part of a parameter list:
    none, the GNU named form [args...], or the standard form [...]
    (whose name in the body is [__VA_ARGS__]). *)
Inductive variadic : Type :=
| NoVar
| NamedVar (name : string)
| StdVar.

Inductive macro : Type :=
| ObjectLike (body : list token)
| FunctionLike (params : list string) (va : variadic) (body : list token).

#[global] Instance variadic_eq_dec : EqDecision variadic.
Proof. solve_decision. Defined.
#[global] Instance macro_eq_dec : EqDecision macro.
Proof. solve_decision. Defined.

(** A definition as the macro table keeps it: the macro and, for each
    token of its replacement list after the first, whether white space
    separates it from the token before.  Two definitions are the same when
    they agree in both: the same parameters, the same tokens in number,
    order and spelling, and the same white-space separation. *)
Record definition : Type := Def {
  def_macro : macro;
  def_gaps  : list bool
}.

#[global] Instance definition_eq_dec : EqDecision definition.
Proof. solve_decision. Defined.

(** One line of a header.  Comment-only and empty lines are [Blank]. *)
Inductive line : Type :=
| Blank
| PragmaOnce
| Ifdef (name : string)
| Ifndef (name : string)
| Else
| Endif
| Define (name : string) (m : macro) (gaps : list bool).

(** [Redefined]: a name is defined again, differently.
    [NamedVariadic]: the GNU form [args...] of a variable parameter,
    reported when strict conformance is asked for ([-pedantic]). *)
Inductive diagnostic : Type :=
| Redefined (name : string)
| NamedVariadic (name : string)
| ElseWithoutIf
| EndifWithoutIf
| UnterminatedConditional.

#[global] Instance diagnostic_eq_dec : EqDecision diagnostic.
Proof. solve_decision. Defined.

(* ===================================================================== *)
(** ** The directive interpreter                                          *)
(* ===================================================================== *)

(** What persists across files of one translation unit.
    [honours_once] says whether the compiler implements [#pragma once]
    (a pragma that is not implemented is ignored); [pedantic] says
    whether it reports the use of extensions to the language
    ([-pedantic], for a language version that has variadic macros). *)
Record pp_state : Type := PPState {
  table        : gmap string definition;
  once_files   : gset string;
  diags        : list diagnostic;
  honours_once : bool;
  pedantic     : bool
}.

(** The macros of the table, without the layout of their definitions. *)
Definition macros (st : pp_state) : gmap string macro := def_macro <$> table st.

Definition defined (st : pp_state) (name : string) : bool :=
  bool_decide (is_Some (macros st !! name)).

(** A frame of the conditional stack: is the current group being
    processed, and was the enclosing group being processed. *)
Record cond_frame : Type := Frame { active : bool; outer : bool }.

Definition processing (stack : list cond_frame) : bool :=
  match stack with
  | [] => true
  | f :: _ => active f
  end.

Definition add_diag (d : diagnostic) (st : pp_state) : pp_state :=
  PPState (table st) (once_files st) (diags st ++ [d]) (honours_once st)
          (pedantic st).

Definition mark_once (file : string) (st : pp_state) : pp_state :=
  PPState (table st) ({[file]} ∪ once_files st) (diags st) (honours_once st)
          (pedantic st).

Definition named_variadic (m : macro) : bool :=
  match m with
  | FunctionLike _ (NamedVar _) _ => true
  | _ => false
  end.

(** The diagnostics of [#define name] with the definition [d], in the
    table [tbl]: the named variable parameter, if the compiler is
    pedantic; then the redefinition, if [name] has a definition that is
    not the same as [d]. *)
Definition raised (strict : bool) (tbl : gmap string definition)
    (name : string) (d : definition) : list diagnostic :=
  (if strict && named_variadic (def_macro d) then [NamedVariadic name] else [])
  ++ match tbl !! name with
     | Some old => if decide (old = d) then [] else [Redefined name]
     | None => []
     end.

(** [#define]: the definition is entered in the table (as GCC and Clang
    do, also when it is a diagnosed redefinition: the new definition
    wins; an identical redefinition leaves the table as it is). *)
Definition define (name : string) (m : macro) (gaps : list bool)
    (st : pp_state) : pp_state :=
  PPState (<[name := Def m gaps]> (table st)) (once_files st)
          (diags st ++ raised (pedantic st) (table st) name (Def m gaps))
          (honours_once st) (pedantic st).

Definition open_group (cond : bool) (stack : list cond_frame) : list cond_frame :=
  let o := processing stack in Frame (o && cond) o :: stack.

Definition process_line (file : string) (acc : pp_state * list cond_frame)
    (l : line) : pp_state * list cond_frame :=
  let '(st, stack) := acc in
  match l with
  | Blank => (st, stack)
  | Ifdef n => (st, open_group (defined st n) stack)
  | Ifndef n => (st, open_group (negb (defined st n)) stack)
  | Else =>
      match stack with
      | [] => (add_diag ElseWithoutIf st, stack)
      | f :: rest => (st, Frame (outer f && negb (active f)) (outer f) :: rest)
      end
  | Endif =>
      match stack with
      | [] => (add_diag EndifWithoutIf st, stack)
      | _ :: rest => (st, rest)
      end
  | PragmaOnce =>
      if processing stack && honours_once st
      then (mark_once file st, stack) else (st, stack)
  | Define n m gaps =>
      if processing stack then (define n m gaps st, stack) else (st, stack)
  end.

Definition process_lines (file : string) (ls : list line)
    (acc : pp_state * list cond_frame) : pp_state * list cond_frame :=
  fold_left (process_line file) ls acc.

(** [#include "file"]: a file marked once is not read again; otherwise its
    lines are processed with a conditional stack of its own, which must be
    empty again at the end of the file. *)
Definition include (file : string) (ls : list line) (st : pp_state) : pp_state :=
  if bool_decide (file ∈ once_files st) then st
  else
    let '(st', stack) := process_lines file ls (st, []) in
    match stack with
    | [] => st'
    | _ :: _ => add_diag UnterminatedConditional st'
    end.

(* ===================================================================== *)
(** ** Macro expansion                                                    *)
(* ===================================================================== *)

(** A token in the course of expansion carries its hide set: the macros
    whose replacement produced it, which are not expanded in it again. *)
Definition htoken : Type := token * list string.

Definition fresh (ts : list token) : list htoken := map (λ t, (t, [])) ts.
Definition strip (ts : list htoken) : list token := map fst ts.
Definition hsadd (hs : list string) (ts : list htoken) : list htoken :=
  map (λ th, (th.1, hs ++ th.2)) ts.

(** Where the invocation stands: the values of [__FILE__] and [__LINE__]. *)
Record location : Type := Loc { cur_file : string; cur_line : Z }.

Definition push_token (t : htoken) (args : list (list htoken)) : list (list htoken) :=
  match args with
  | [] => [[t]]
  | a :: rest => (t :: a) :: rest
  end.

(** The tokens after the opening parenthesis of an invocation, split at
    the commas outside nested parentheses, up to the matching closing
    parenthesis.  Returns the actuals, the hide set of the closing
    parenthesis and the tokens after it. *)
Fixpoint collect_args (depth : nat) (ts : list htoken)
    : option (list (list htoken) * list string * list htoken) :=
  match ts with
  | [] => None
  | t :: rest =>
      match t.1, depth with
      | Punct RParen, O => Some ([[]], t.2, rest)
      | Punct Comma, O =>
          '(args, hs, r) ← collect_args O rest; Some ([] :: args, hs, r)
      | Punct RParen, S d =>
          '(args, hs, r) ← collect_args d rest; Some (push_token t args, hs, r)
      | Punct LParen, _ =>
          '(args, hs, r) ← collect_args (S depth) rest; Some (push_token t args, hs, r)
      | _, _ =>
          '(args, hs, r) ← collect_args depth rest; Some (push_token t args, hs, r)
      end
  end.

Fixpoint join_commas (args : list (list htoken)) : list htoken :=
  match args with
  | [] => []
  | [a] => a
  | a :: rest => a ++ (Punct Comma, []) :: join_commas rest
  end.

(** What [, ## va] leaves for the actuals [args] that follow the named
    parameters: nothing when there is none (the variable argument is
    omitted), and otherwise the comma followed by them, also when the
    variable argument is present but empty, as in [DEBUG(f,)]. *)
Definition comma_args (args : list (list htoken)) : list htoken :=
  match args with
  | [] => []
  | _ :: _ => (Punct Comma, []) :: join_commas args
  end.

Definition va_name (va : variadic) : option string :=
  match va with
  | NoVar => None
  | NamedVar n => Some n
  | StdVar => Some "__VA_ARGS__"
  end.

(** Parameters bound to the (unexpanded) actuals.  Without a variable
    part the counts must agree (an invocation [f()] of a macro without
    parameters has no actual); with one, the actuals beyond the named
    parameters, commas included, are the variable argument.  The variable
    argument may be left out altogether, and is then not bound: an
    omitted variable argument, [DEBUG(f)], is told from one that is
    present and empty, [DEBUG(f,)], which is bound to no token. *)
Definition bind_args (params : list string) (va : variadic)
    (actuals : list (list htoken)) : option (list (string * list htoken)) :=
  match va_name va with
  | None =>
      if decide (length actuals = length params) then Some (zip params actuals)
      else if decide (params = [] ∧ actuals = [[]]) then Some []
      else None
  | Some v =>
      if decide (length params ≤ length actuals)%nat
      then Some (zip params actuals
                 ++ (if decide (length params < length actuals)%nat
                     then [(v, join_commas (drop (length params) actuals))]
                     else []))
      else None
  end.

Fixpoint lookup_binding (p : string) (bs : list (string * list htoken))
    : option (list htoken) :=
  match bs with
  | [] => None
  | (q, a) :: rest => if decide (p = q) then Some a else lookup_binding p rest
  end.

(** The replacement list with its parameters replaced.  A parameter is
    replaced by its actual, macro-expanded by [exp], which is only called
    for parameters the replacement list uses.  The one use of [##]
    accepted is the GNU one, [, ## va] before the variable argument [va]:
    the comma is dropped when the variable argument is omitted (not
    bound), and is kept, followed by the unexpanded variable argument,
    when it is present, be it empty.  Elsewhere an omitted variable
    argument is replaced by nothing.  Every other use of [#] or [##]
    makes the replacement fail. *)
Fixpoint subst (exp : list htoken → option (list htoken))
    (bs : list (string * list htoken)) (va : option string)
    (body : list token) : option (list htoken) :=
  match body with
  | [] => Some []
  | Punct Comma :: Punct HashHash :: Ident p :: rest =>
      if decide (va = Some p) then
        match lookup_binding p bs with
        | None => subst exp bs va rest
        | Some raw => r ← subst exp bs va rest; Some ((Punct Comma, []) :: raw ++ r)
        end
      else None
  | Punct HashHash :: _ => None
  | Punct Hash :: _ => None
  | Ident p :: rest =>
      match lookup_binding p bs with
      | Some raw => e ← exp raw; r ← subst exp bs va rest; Some (e ++ r)
      | None =>
          if decide (va = Some p) then subst exp bs va rest
          else r ← subst exp bs va rest; Some ((Ident p, []) :: r)
      end
  | t :: rest => r ← subst exp bs va rest; Some ((t, []) :: r)
  end.

(** The replacement of one invocation of [m] with the given actuals. *)
Definition invoke (exp : list htoken → option (list htoken)) (m : macro)
    (actuals : list (list htoken)) : option (list htoken) :=
  match m with
  | ObjectLike body => subst exp [] None body
  | FunctionLike params va body =>
      bs ← bind_args params va actuals; subst exp bs (va_name va) body
  end.

Definition hide_inter (hs hs' : list string) : list string :=
  filter (λ s, s ∈ hs') hs.

(** Expansion of a token sequence, rescanning each replacement together
    with the tokens that follow it.  [fuel] bounds the number of
    scanning steps; [None] is an ill-formed invocation or lack of fuel. *)
Fixpoint expand (fuel : nat) (env : gmap string macro) (loc : location)
    (ts : list htoken) : option (list htoken) :=
  match fuel with
  | O => None
  | S fuel' =>
      match ts with
      | [] => Some []
      | (Ident s, hs) :: rest =>
          if bool_decide (s ∈ hs) then
            r ← expand fuel' env loc rest; Some ((Ident s, hs) :: r)
          else if decide (s = "__FILE__") then
            r ← expand fuel' env loc rest; Some ((StrLit (cur_file loc), hs) :: r)
          else if decide (s = "__LINE__") then
            r ← expand fuel' env loc rest; Some ((Number (cur_line loc), hs) :: r)
          else
            match env !! s with
            | None => r ← expand fuel' env loc rest; Some ((Ident s, hs) :: r)
            | Some (ObjectLike body) =>
                b ← invoke (expand fuel' env loc) (ObjectLike body) [];
                expand fuel' env loc (hsadd (s :: hs) b ++ rest)
            | Some (FunctionLike ps va body) =>
                match rest with
                | (Punct LParen, _) :: rest' =>
                    '(actuals, hs', rest'') ← collect_args O rest';
                    b ← invoke (expand fuel' env loc) (FunctionLike ps va body) actuals;
                    expand fuel' env loc (hsadd (s :: hide_inter hs hs') b ++ rest'')
                | _ => r ← expand fuel' env loc rest; Some ((Ident s, hs) :: r)
                end
            end
      | t :: rest => r ← expand fuel' env loc rest; Some (t :: r)
      end
  end.

(** A token the expander leaves as it is: anything but an identifier, an
    identifier in its own hide set, or an identifier that names neither a
    macro nor [__FILE__] or [__LINE__]. *)
Definition inertb (env : gmap string macro) (t : htoken) : bool :=
  match t.1 with
  | Ident s =>
      bool_decide (s ∈ t.2)
      || (negb (bool_decide (s = "__FILE__")) && negb (bool_decide (s = "__LINE__"))
          && bool_decide (env !! s = None))
  | _ => true
  end.

(** The nesting depth after the tokens [x], read from depth [d] inside an
    argument list; [None] if [x] closes the list or holds a comma that
    separates two arguments.  [arg_depth 0 x = Some 0] says that [x] is
    one whole argument. *)
Fixpoint arg_depth (d : nat) (x : list htoken) : option nat :=
  match x with
  | [] => Some d
  | t :: r =>
      match t.1, d with
      | Punct RParen, O => None
      | Punct Comma, O => None
      | Punct RParen, S d' => arg_depth d' r
      | Punct LParen, _ => arg_depth (S d) r
      | _, _ => arg_depth d r
      end
  end.

Definition one_arg (x : list token) : bool :=
  bool_decide (arg_depth O (fresh x) = Some O).

(** The source text [f(a1, ..., an)]. *)
Definition call (f : string) (args : list (list token)) : list token :=
  Ident f :: Punct LParen :: strip (join_commas (map fresh args)) ++ [Punct RParen].

(** Expansion of source text: tokens that no macro produced. *)
Definition preprocess (fuel : nat) (env : gmap string macro) (loc : location)
    (ts : list token) : option (list token) :=
  strip <$> expand fuel env loc (fresh ts).

End Cpp.

(* ===================================================================== *)
(** ** The header                                                         *)
(* ===================================================================== *)

Module Header.
Import Cpp.

Definition file_name : string := "common.hpp".

(** [__attribute__((inner))] *)
Definition attribute (inner : list token) : list token :=
  [Ident "__attribute__"; Punct LParen; Punct LParen] ++ inner
    ++ [Punct RParen; Punct RParen].

(** The replacement lists, named by the line that defines them. *)

(** line 4: [#define COMMON_HPP] *)
Definition guard_def : macro := ObjectLike [].

(** line 7: [#define likely(x) __builtin_expect(!!(x), 1)] *)
Definition likely_def : macro :=
  FunctionLike ["x"] NoVar
    [Ident "__builtin_expect"; Punct LParen; Punct Bang; Punct Bang;
     Punct LParen; Ident "x"; Punct RParen; Punct Comma; Number 1;
     Punct RParen].

(** line 8: [#define unlikely(x) __builtin_expect(!!(x), 0)] *)
Definition unlikely_def : macro :=
  FunctionLike ["x"] NoVar
    [Ident "__builtin_expect"; Punct LParen; Punct Bang; Punct Bang;
     Punct LParen; Ident "x"; Punct RParen; Punct Comma; Number 0;
     Punct RParen].

(** line 11: [#define ATTRIBUTE_NEVER_INLINE __attribute__((noinline))] *)
Definition never_inline_def : macro :=
  ObjectLike (attribute [Ident "noinline"]).

(** line 12: [#define ATTRIBUTE_ALWAYS_INLINE __attribute__((always_inline))] *)
Definition always_inline_def : macro :=
  ObjectLike (attribute [Ident "always_inline"]).

(** line 13: [#define ATTRIBUTE_HIDDEN __attribute__((visibility("hidden")))] *)
Definition hidden_def : macro :=
  ObjectLike (attribute
    [Ident "visibility"; Punct LParen; StrLit "hidden"; Punct RParen]).

(** line 14: [#define ATTRIBUTE_EXPORT __attribute__((visibility("default")))] *)
Definition export_def : macro :=
  ObjectLike (attribute
    [Ident "visibility"; Punct LParen; StrLit "default"; Punct RParen]).

(** line 15: [#define ATTRIBUTE_ALIGNED(s) __attribute__((aligned(s)))] *)
Definition aligned_def : macro :=
  FunctionLike ["s"] NoVar (attribute
    [Ident "aligned"; Punct LParen; Ident "s"; Punct RParen]).

(** line 16: [#define CACHELINE_SIZE 64] *)
Definition cacheline_size_def : macro := ObjectLike [Number 64].

(** line 17: [#define CACHELINE_ALIGNED ATTRIBUTE_ALIGNED(CACHELINE_SIZE)] *)
Definition cacheline_aligned_def : macro :=
  ObjectLike [Ident "ATTRIBUTE_ALIGNED"; Punct LParen; Ident "CACHELINE_SIZE";
              Punct RParen].

(** line 18: [#define CACHELINE_ALIGNED_FN CACHELINE_ALIGNED] *)
Definition cacheline_aligned_fn_def : macro :=
  ObjectLike [Ident "CACHELINE_ALIGNED"].

(** line 20: [#define USE_COMPRESSED_PTRS 0] *)
Definition use_compressed_ptrs_def : macro := ObjectLike [Number 0].

(** line 21: [#define USE_SIZE_CACHES 0  // 1] *)
Definition use_size_caches_def : macro := ObjectLike [Number 0].

(** line 25: [#define DEBUG(format, args...)
      printf("FILE: " __FILE__ ", LINE: %d: " format "\n", __LINE__, ##args)] *)
Definition debug_on_def : macro :=
  FunctionLike ["format"] (NamedVar "args")
    [Ident "printf"; Punct LParen; StrLit "FILE: "; Ident "__FILE__";
     StrLit ", LINE: %d: "; Ident "format"; StrLit "\n"; Punct Comma;
     Ident "__LINE__"; Punct Comma; Punct HashHash; Ident "args";
     Punct RParen].

(** line 27: [#define DEBUG(format, ...)] *)
Definition debug_off_def : macro := FunctionLike ["format"] StdVar [].

(** [__attribute__((aligned(64)))] *)
Definition aligned_64 : list token :=
  attribute [Ident "aligned"; Punct LParen; Number 64; Punct RParen].

(** The white-space separation of the replacement lists: one flag for
    each token after the first, set where the source has white space
    before the token.  Replacement lists of at most one token have none. *)

(** lines 7 and 8: [__builtin_expect(!!(x), 1)], white space before [1] *)
Definition hint_gaps : list bool :=
  [false; false; false; false; false; false; false; true; false].

(** lines 11 and 12: [__attribute__((noinline))], no white space *)
Definition attribute_gaps : list bool := [false; false; false; false; false].

(** lines 13 to 15: [__attribute__((visibility("hidden")))], no white space *)
Definition attribute_call_gaps : list bool :=
  [false; false; false; false; false; false; false; false].

(** line 17: [ATTRIBUTE_ALIGNED(CACHELINE_SIZE)], no white space *)
Definition cacheline_aligned_gaps : list bool := [false; false; false].

(** line 25: [printf("FILE: " __FILE__ ", LINE: %d: " format "\n", __LINE__, ##args)],
    white space before [__FILE__], the second string, [format], the third
    string, [__LINE__] and [##] *)
Definition debug_on_gaps : list bool :=
  [false; false; true; true; true; true; false; true; false; true; false; false].

(** The 30 lines of the file, in order, one entry per line. *)
Definition common_hpp : list line := [
  (*  1 *) PragmaOnce;
  (*  2 *) Blank;
  (*  3 *) Ifndef "COMMON_HPP";
  (*  4 *) Define "COMMON_HPP" guard_def [];
  (*  5 *) Blank;
  (*  6 *) Ifndef "likely";
  (*  7 *) Define "likely" likely_def hint_gaps;
  (*  8 *) Define "unlikely" unlikely_def hint_gaps;
  (*  9 *) Endif;
  (* 10 *) Blank;
  (* 11 *) Define "ATTRIBUTE_NEVER_INLINE" never_inline_def attribute_gaps;
  (* 12 *) Define "ATTRIBUTE_ALWAYS_INLINE" always_inline_def attribute_gaps;
  (* 13 *) Define "ATTRIBUTE_HIDDEN" hidden_def attribute_call_gaps;
  (* 14 *) Define "ATTRIBUTE_EXPORT" export_def attribute_call_gaps;
  (* 15 *) Define "ATTRIBUTE_ALIGNED" aligned_def attribute_call_gaps;
  (* 16 *) Define "CACHELINE_SIZE" cacheline_size_def [];
  (* 17 *) Define "CACHELINE_ALIGNED" cacheline_aligned_def cacheline_aligned_gaps;
  (* 18 *) Define "CACHELINE_ALIGNED_FN" cacheline_aligned_fn_def [];
  (* 19 *) Blank;
  (* 20 *) Define "USE_COMPRESSED_PTRS" use_compressed_ptrs_def [];
  (* 21 *) Define "USE_SIZE_CACHES" use_size_caches_def [];
  (* 22 *) Blank;
  (* 23 *) Blank (* the definition of __DEBUG, commented out *);
  (* 24 *) Ifdef "__DEBUG";
  (* 25 *) Define "DEBUG" debug_on_def debug_on_gaps;
  (* 26 *) Else;
  (* 27 *) Define "DEBUG" debug_off_def [];
  (* 28 *) Endif;
  (* 29 *) Blank;
  (* 30 *) Endif
].

(** [#include "common.hpp"] *)
Definition include_common (st : pp_state) : pp_state :=
  include file_name common_hpp st.

(** A translation unit that has defined nothing and included nothing. *)
Definition empty_unit (once : bool) : pp_state := PPState ∅ ∅ [] once false.

(** Will [#include "common.hpp"] read the body of the file: the file is
    not marked once and its guard symbol is not defined. *)
Definition first_reading (st : pp_state) : bool :=
  negb (defined st "COMMON_HPP") && bool_decide (file_name ∉ once_files st).

(** The [#define]s one reading of the file performs, in order, as decided
    by its two inner tests: is [likely] defined at line 6, is [__DEBUG]
    defined at line 24.  (Shown below to be what [include_common] does.) *)
Definition define_all (ds : list (string * definition)) (st : pp_state) : pp_state :=
  fold_left (λ s d, define d.1 (def_macro d.2) (def_gaps d.2) s) ds st.

Definition hint_defs : list (string * definition) :=
  [("likely", Def likely_def hint_gaps); ("unlikely", Def unlikely_def hint_gaps)].

Definition plain_defs : list (string * definition) :=
  [("ATTRIBUTE_NEVER_INLINE", Def never_inline_def attribute_gaps);
   ("ATTRIBUTE_ALWAYS_INLINE", Def always_inline_def attribute_gaps);
   ("ATTRIBUTE_HIDDEN", Def hidden_def attribute_call_gaps);
   ("ATTRIBUTE_EXPORT", Def export_def attribute_call_gaps);
   ("ATTRIBUTE_ALIGNED", Def aligned_def attribute_call_gaps);
   ("CACHELINE_SIZE", Def cacheline_size_def []);
   ("CACHELINE_ALIGNED", Def cacheline_aligned_def cacheline_aligned_gaps);
   ("CACHELINE_ALIGNED_FN", Def cacheline_aligned_fn_def []);
   ("USE_COMPRESSED_PTRS", Def use_compressed_ptrs_def []);
   ("USE_SIZE_CACHES", Def use_size_caches_def [])].

Definition header_defs (has_likely has_debug : bool) : list (string * definition) :=
  ("COMMON_HPP", Def guard_def [])
    :: (if has_likely then [] else hint_defs)
    ++ plain_defs
    ++ [("DEBUG", if has_debug then Def debug_on_def debug_on_gaps
                  else Def debug_off_def [])].

(** The names and macros of a list of definitions. *)
Definition entries (ds : list (string * definition)) : list (string * macro) :=
  map (λ d, (d.1, def_macro d.2)) ds.

(** The diagnostics a sequence of [#define]s of distinct names raises
    when it starts in the table [tbl]. *)
Definition clashes (strict : bool) (tbl : gmap string definition)
    (ds : list (string * definition)) : list diagnostic :=
  concat (map (λ d, raised strict tbl d.1 d.2) ds).

(** The names section 6 of the specification lists as the interface. *)
Definition interface_names : list string :=
  ["likely"; "unlikely"; "ATTRIBUTE_NEVER_INLINE"; "ATTRIBUTE_ALWAYS_INLINE";
   "ATTRIBUTE_HIDDEN"; "ATTRIBUTE_EXPORT"; "ATTRIBUTE_ALIGNED";
   "CACHELINE_SIZE"; "CACHELINE_ALIGNED"; "CACHELINE_ALIGNED_FN";
   "USE_COMPRESSED_PTRS"; "USE_SIZE_CACHES"; "DEBUG"].

End Header.

(* ===================================================================== *)
(** ** Expressions and statements after preprocessing                     *)
(* ===================================================================== *)

Module CSem.
Import Cpp.

(** Scalar values: integers, addresses (0 is the null pointer) and the
    arrays string literals denote. *)
Inductive value : Type :=
| VInt (n : Z)
| VPtr (addr : Z)
| VStr (chars : string).

(** The value of a scalar in a condition. *)
Definition truth (v : value) : bool :=
  match v with
  | VInt n => negb (Z.eqb n 0)
  | VPtr a => negb (Z.eqb a 0)
  | VStr _ => true
  end.

Definition of_bool (b : bool) : value := VInt (if b then 1 else 0).

(** Conversion to [long], the parameter type of [__builtin_expect]. *)
Definition to_long (n : Z) : Z := ((n + 2 ^ 63) mod 2 ^ 64 - 2 ^ 63)%Z.

Inductive expr : Type :=
| EConst (n : Z)
| EStr (chars : string)
| EVar (x : string)
| ENot (e : expr)
| EParen (e : expr)
| EAssign (x : string) (e : expr)
| ECall (f : string) (args : list expr).

Inductive stmt : Type :=
| SNull
| SExpr (e : expr).

(** The variables of the program and everything it has written so far
    (one entry per output call, holding its arguments). *)
Record machine : Type := Machine {
  store  : gmap string value;
  output : list (list value)
}.

Definition library : Type := string → list value → machine → option (value * machine).

(** [long __builtin_expect(long exp, long c)] returns [exp]; the hint [c]
    has no effect on the result. *)
Definition builtin_expect (vs : list value) : option value :=
  match vs with
  | [VInt e; VInt _] => Some (VInt (to_long e))
  | _ => None
  end.

(** Evaluation of an expression: its value and the machine after its
    side effects.  Arguments are evaluated from left to right.  Functions
    other than the intrinsic are looked up in [lib]. *)
Fixpoint eval (lib : library) (e : expr) (σ : machine) : option (value * machine) :=
  match e with
  | EConst n => Some (VInt n, σ)
  | EStr s => Some (VStr s, σ)
  | EVar x => v ← store σ !! x; Some (v, σ)
  | ENot e1 => '(v, σ1) ← eval lib e1 σ; Some (of_bool (negb (truth v)), σ1)
  | EParen e1 => eval lib e1 σ
  | EAssign x e1 =>
      '(v, σ1) ← eval lib e1 σ;
      Some (v, Machine (<[x := v]> (store σ1)) (output σ1))
  | ECall f args =>
      '(vs, σ1) ←
        (fix eval_args (es : list expr) (σ0 : machine) : option (list value * machine) :=
           match es with
           | [] => Some ([], σ0)
           | e1 :: es' =>
               '(v, σ1) ← eval lib e1 σ0;
               '(vs, σ2) ← eval_args es' σ1;
               Some (v :: vs, σ2)
           end) args σ;
      if decide (f = "__builtin_expect")
      then v ← builtin_expect vs; Some (v, σ1)
      else lib f vs σ1
  end.

Definition exec (lib : library) (s : stmt) (σ : machine) : option machine :=
  match s with
  | SNull => Some σ
  | SExpr e => snd <$> eval lib e σ
  end.

(** The spelling of an expression, token by token. *)
Fixpoint print_expr (e : expr) : list token :=
  match e with
  | EConst n => [Number n]
  | EStr s => [StrLit s]
  | EVar x => [Ident x]
  | ENot e1 => Punct Bang :: print_expr e1
  | EParen e1 => Punct LParen :: print_expr e1 ++ [Punct RParen]
  | EAssign x e1 => Ident x :: Punct (Op "=") :: print_expr e1
  | ECall f args =>
      Ident f :: Punct LParen ::
        (fix print_args (es : list expr) : list token :=
           match es with
           | [] => []
           | [e1] => print_expr e1
           | e1 :: es' => print_expr e1 ++ Punct Comma :: print_args es'
           end) args
        ++ [Punct RParen]
  end.

Definition print_stmt (s : stmt) : list token :=
  match s with
  | SNull => [Punct Semi]
  | SExpr e => print_expr e ++ [Punct Semi]
  end.

(** The expressions lines 7 and 8 of the header turn [likely(x)] and
    [unlikely(x)] into. *)
Definition likely (x : expr) : expr :=
  ECall "__builtin_expect" [ENot (ENot (EParen x)); EConst 1].

Definition unlikely (x : expr) : expr :=
  ECall "__builtin_expect" [ENot (ENot (EParen x)); EConst 0].

End CSem.

(* ===================================================================== *)
(** ** What [#define] and [#include] do to the macro table                *)
(* ===================================================================== *)

Module TableFacts.
Import Cpp Header.

Lemma macros_define_eq n m g st : macros (define n m g st) !! n = Some m.
Proof. unfold macros, define. simpl. by rewrite lookup_fmap, lookup_insert_eq. Qed.

Lemma macros_define_ne n k m g st :
  n ≠ k → macros (define n m g st) !! k = macros st !! k.
Proof.
  intros Hne. unfold macros, define. simpl.
  by rewrite !lookup_fmap, lookup_insert_ne.
Qed.

Lemma table_define_ne n k m g st :
  n ≠ k → table (define n m g st) !! k = table st !! k.
Proof. intros Hne. unfold define. simpl. by rewrite lookup_insert_ne. Qed.

Lemma once_files_define n m g st : once_files (define n m g st) = once_files st.
Proof. reflexivity. Qed.

Lemma honours_once_define n m g st :
  honours_once (define n m g st) = honours_once st.
Proof. reflexivity. Qed.

Lemma pedantic_define n m g st : pedantic (define n m g st) = pedantic st.
Proof. reflexivity. Qed.

Lemma defined_define_ne n k m g st :
  n ≠ k → defined (define n m g st) k = defined st k.
Proof. intros Hne. unfold defined. by rewrite macros_define_ne. Qed.

Lemma defined_define_eq n m g st : defined (define n m g st) n = true.
Proof. unfold defined. rewrite macros_define_eq. by apply bool_decide_eq_true. Qed.

Lemma dom_macros_define n m g st :
  dom (macros (define n m g st)) = {[n]} ∪ dom (macros st).
Proof. unfold macros, define. simpl. by rewrite !dom_fmap_L, dom_insert_L. Qed.

Lemma defined_true st k : defined st k = true ↔ is_Some (macros st !! k).
Proof. unfold defined. apply bool_decide_eq_true. Qed.

Lemma defined_false st k : defined st k = false ↔ macros st !! k = None.
Proof.
  unfold defined. rewrite bool_decide_eq_false. split.
  - intros H. by apply eq_None_not_Some.
  - intros -> [? ?]. discriminate.
Qed.

Lemma macros_table_None st k : macros st !! k = None ↔ table st !! k = None.
Proof. unfold macros. rewrite lookup_fmap. by destruct (table st !! k). Qed.

(** *** [define_all] *)

Lemma define_all_cons d ds st :
  define_all (d :: ds) st
  = define_all ds (define d.1 (def_macro d.2) (def_gaps d.2) st).
Proof. reflexivity. Qed.

Lemma macros_define_all_other ds k st :
  k ∉ ds.*1 → macros (define_all ds st) !! k = macros st !! k.
Proof.
  revert st. induction ds as [|[n d] ds IH]; intros st Hk; [done|].
  apply not_elem_of_cons in Hk as [Hn Hk].
  rewrite define_all_cons, IH by done.
  by apply macros_define_ne.
Qed.

Lemma macros_define_all_in ds k m st :
  NoDup ds.*1 → (k, m) ∈ entries ds → macros (define_all ds st) !! k = Some m.
Proof.
  revert st. induction ds as [|[n d] ds IH]; intros st Hnd Hin.
  - by apply elem_of_nil in Hin.
  - rewrite define_all_cons. simpl in Hnd. apply NoDup_cons in Hnd as [Hn Hnd].
    apply elem_of_cons in Hin as [Heq|Hin].
    + injection Heq as -> ->. rewrite macros_define_all_other by done.
      apply macros_define_eq.
    + by apply IH.
Qed.

Lemma dom_define_all ds st :
  dom (macros (define_all ds st)) = list_to_set ds.*1 ∪ dom (macros st).
Proof.
  revert st. induction ds as [|[n d] ds IH]; intros st.
  - simpl. set_solver.
  - rewrite define_all_cons, IH, dom_macros_define. simpl. set_solver.
Qed.

Lemma once_files_define_all ds st :
  once_files (define_all ds st) = once_files st.
Proof.
  revert st. induction ds as [|[n d] ds IH]; intros st; [done|].
  by rewrite define_all_cons, IH, once_files_define.
Qed.

Lemma honours_once_define_all ds st :
  honours_once (define_all ds st) = honours_once st.
Proof.
  revert st. induction ds as [|[n d] ds IH]; intros st; [done|].
  by rewrite define_all_cons, IH, honours_once_define.
Qed.

Lemma pedantic_define_all ds st : pedantic (define_all ds st) = pedantic st.
Proof.
  revert st. induction ds as [|[n d] ds IH]; intros st; [done|].
  by rewrite define_all_cons, IH, pedantic_define.
Qed.

End TableFacts.

(* ===================================================================== *)
(** ** One reading of the header                                          *)
(* ===================================================================== *)

Module IncludeFacts.
Import Cpp Header TableFacts.

#[local] Arguments define : simpl never.
#[local] Arguments defined : simpl never.
#[local] Arguments mark_once : simpl never.

Lemma process_lines_cons f l ls acc :
  process_lines f (l :: ls) acc = process_lines f ls (process_line f acc l).
Proof. reflexivity. Qed.

Lemma process_lines_nil f acc : process_lines f [] acc = acc.
Proof. reflexivity. Qed.

Lemma defined_mark_once f st k : defined (mark_once f st) k = defined st k.
Proof. reflexivity. Qed.

(** Process the next line and bring the conditional stack to normal form. *)
Ltac line_step :=
  rewrite process_lines_cons;
  cbn [process_line processing open_group active outer andb negb].

Ltac close_defs :=
  rewrite process_lines_nil;
  unfold define_all, header_defs, plain_defs, hint_defs;
  cbn [app fold_left fst snd]; reflexivity.

(** Lines 2 to 30 when the guard symbol is defined: all skipped. *)
Lemma process_common_skipped st :
  defined st "COMMON_HPP" = true →
  process_lines file_name (tail common_hpp) (st, []) = (st, []).
Proof.
  intros Hg. unfold common_hpp. cbn [tail].
  do 2 line_step. rewrite Hg.
  repeat line_step. reflexivity.
Qed.

(** Lines 2 to 30 when it is not: the conditional stack is empty again
    at the end and the [#define]s performed are [header_defs]. *)
Lemma process_common_fresh st :
  defined st "COMMON_HPP" = false →
  process_lines file_name (tail common_hpp) (st, []) =
    (define_all (header_defs (defined st "likely") (defined st "__DEBUG")) st, []).
Proof.
  intros Hg. unfold common_hpp. cbn [tail].
  do 2 line_step. rewrite Hg. do 3 line_step.
  rewrite defined_define_ne by (intros ?; discriminate).
  destruct (defined st "likely") eqn:Hl.
  - do 18 line_step.
    rewrite !defined_define_ne by (intros ?; discriminate).
    destruct (defined st "__DEBUG") eqn:Hd; repeat line_step; close_defs.
  - do 18 line_step.
    rewrite !defined_define_ne by (intros ?; discriminate).
    destruct (defined st "__DEBUG") eqn:Hd; repeat line_step; close_defs.
Qed.

Lemma include_common_once st :
  file_name ∈ once_files st → include_common st = st.
Proof.
  intros H. unfold include_common, include.
  by rewrite bool_decide_eq_true_2.
Qed.

Lemma include_common_skipped st :
  defined st "COMMON_HPP" = true →
  file_name ∉ once_files st →
  include_common st = if honours_once st then mark_once file_name st else st.
Proof.
  intros Hg Ho. unfold include_common, include.
  rewrite bool_decide_eq_false_2 by done.
  change common_hpp with (PragmaOnce :: tail common_hpp).
  line_step.
  destruct (honours_once st) eqn:E; by rewrite process_common_skipped.
Qed.

Lemma include_common_fresh st :
  defined st "COMMON_HPP" = false →
  file_name ∉ once_files st →
  include_common st =
    define_all (header_defs (defined st "likely") (defined st "__DEBUG"))
      (if honours_once st then mark_once file_name st else st).
Proof.
  intros Hg Ho. unfold include_common, include.
  rewrite bool_decide_eq_false_2 by done.
  change common_hpp with (PragmaOnce :: tail common_hpp).
  line_step.
  destruct (honours_once st) eqn:E; by rewrite process_common_fresh.
Qed.

Lemma define_mark_once n m g f st :
  define n m g (mark_once f st) = mark_once f (define n m g st).
Proof. reflexivity. Qed.

Lemma define_all_mark_once ds f st :
  define_all ds (mark_once f st) = mark_once f (define_all ds st).
Proof.
  revert st. induction ds as [|[n d] ds IH]; intros st; [done|].
  by rewrite !define_all_cons, <- IH, define_mark_once.
Qed.

(** The macro table after a reading that was not skipped. *)
Lemma macros_include_common_fresh st :
  defined st "COMMON_HPP" = false →
  file_name ∉ once_files st →
  macros (include_common st) =
    macros (define_all (header_defs (defined st "likely") (defined st "__DEBUG")) st).
Proof.
  intros Hg Ho. rewrite include_common_fresh by done.
  destruct (honours_once st); [|done].
  by rewrite define_all_mark_once.
Qed.

(** A name the header does not define keeps its meaning, whatever the
    state the header is read in. *)
Lemma macros_include_common_other st k :
  k ∉ "COMMON_HPP" :: interface_names →
  macros (include_common st) !! k = macros st !! k.
Proof.
  intros Hk.
  destruct (decide (file_name ∈ once_files st)) as [Ho|Ho].
  { by rewrite include_common_once. }
  destruct (defined st "COMMON_HPP") eqn:Hg.
  { rewrite include_common_skipped by done. by destruct (honours_once st). }
  rewrite macros_include_common_fresh by done.
  apply macros_define_all_other. intros Hin. apply Hk.
  assert (Forall (λ n, n ∈ "COMMON_HPP" :: interface_names)
            (header_defs (defined st "likely") (defined st "__DEBUG")).*1) as Hall.
  { destruct (defined st "likely"), (defined st "__DEBUG");
      refine (bool_decide_unpack _ _); vm_compute; exact I. }
  by apply (proj1 (Forall_forall _ _) Hall).
Qed.

(** A name the header does define, in a reading that was not skipped. *)
Lemma macros_include_common_in st k m :
  defined st "COMMON_HPP" = false →
  file_name ∉ once_files st →
  (k, m) ∈ entries (header_defs (defined st "likely") (defined st "__DEBUG")) →
  macros (include_common st) !! k = Some m.
Proof.
  intros Hg Ho Hin. rewrite macros_include_common_fresh by done.
  apply macros_define_all_in; [|done].
  destruct (defined st "likely"), (defined st "__DEBUG"); simpl;
    refine (bool_decide_unpack _ _); vm_compute; exact I.
Qed.

(** Closed decidable goals (membership in the tables of the header,
    distinctness of its names) are settled by evaluation. *)
Ltac by_compute := refine (bool_decide_unpack _ _); vm_compute; exact I.

(** *** First and later readings *)

Lemma first_reading_spec st :
  first_reading st = true ↔ defined st "COMMON_HPP" = false ∧ file_name ∉ once_files st.
Proof.
  unfold first_reading. rewrite andb_true_iff, negb_true_iff, bool_decide_eq_true. done.
Qed.

(** The entry of the header's macro [k] after a first reading. *)
Lemma header_entry st k m :
  first_reading st = true →
  (k, m) ∈ entries (header_defs (defined st "likely") (defined st "__DEBUG")) →
  macros (include_common st) !! k = Some m.
Proof.
  intros [Hg Ho]%first_reading_spec. by apply macros_include_common_in.
Qed.

Lemma plain_entry st k m :
  first_reading st = true → (k, m) ∈ entries plain_defs →
  macros (include_common st) !! k = Some m.
Proof.
  intros H Hin. apply header_entry; [done|].
  unfold header_defs, entries. rewrite map_cons, !map_app.
  apply elem_of_cons. right.
  apply elem_of_app. right. apply elem_of_app. by left.
Qed.

(** After one inclusion no further inclusion is a first reading. *)
Lemma first_reading_after st : first_reading (include_common st) = false.
Proof.
  unfold first_reading. apply andb_false_iff.
  destruct (decide (file_name ∈ once_files st)) as [Ho|Ho].
  { right. rewrite include_common_once by done. by apply bool_decide_eq_false; intros ?. }
  destruct (defined st "COMMON_HPP") eqn:Hg.
  - left. rewrite include_common_skipped by done.
    destruct (honours_once st); [rewrite defined_mark_once|]; by rewrite Hg.
  - left. apply negb_false_iff, defined_true.
    rewrite (macros_include_common_in st "COMMON_HPP" guard_def); [by eexists|done|done|].
    apply elem_of_cons; by left.
Qed.

(** What a reading that is not the first leaves behind. *)
Lemma include_common_not_first st :
  first_reading st = false →
  include_common st =
    if bool_decide (file_name ∈ once_files st) then st
    else if honours_once st then mark_once file_name st else st.
Proof.
  intros Hr. case_bool_decide as Ho.
  { by apply include_common_once. }
  apply include_common_skipped; [|done].
  unfold first_reading in Hr. apply andb_false_iff in Hr as [Hr|Hr].
  - by apply negb_false_iff in Hr.
  - by apply bool_decide_eq_false in Hr.
Qed.

Lemma honours_once_include st :
  honours_once (include_common st) = honours_once st.
Proof.
  destruct (first_reading st) eqn:Hr.
  - apply first_reading_spec in Hr as [Hg Ho].
    rewrite include_common_fresh, honours_once_define_all by done.
    by destruct (honours_once st) eqn:E.
  - rewrite include_common_not_first by done.
    case_bool_decide; [done|]. by destruct (honours_once st) eqn:E.
Qed.

Lemma once_marked st :
  honours_once st = true → file_name ∈ once_files (include_common st).
Proof.
  intros E. destruct (first_reading st) eqn:Hr.
  - apply first_reading_spec in Hr as [Hg Ho].
    rewrite include_common_fresh, once_files_define_all, E by done.
    unfold mark_once. simpl. set_solver.
  - rewrite include_common_not_first by done.
    case_bool_decide; [done|]. rewrite E. unfold mark_once. simpl. set_solver.
Qed.

(** *** The entries the claims are about *)

Lemma hint_entries st :
  first_reading st = true → defined st "likely" = false →
  macros (include_common st) !! "likely" = Some likely_def
  ∧ macros (include_common st) !! "unlikely" = Some unlikely_def.
Proof.
  intros Hr Hl. split; apply header_entry; try done; rewrite Hl;
    destruct (defined st "__DEBUG"); by_compute.
Qed.

Lemma debug_entry st :
  first_reading st = true →
  macros (include_common st) !! "DEBUG"
  = Some (if defined st "__DEBUG" then debug_on_def else debug_off_def).
Proof.
  intros Hr. apply header_entry; [done|].
  destruct (defined st "likely"), (defined st "__DEBUG"); by_compute.
Qed.

(** A name that is no macro before the inclusion, and that the header
    does not define, is no macro after it. *)
Lemma untouched st k :
  k ∉ "COMMON_HPP" :: interface_names → defined st k = false →
  macros (include_common st) !! k = None.
Proof.
  intros Hk Hd. rewrite macros_include_common_other by done. by apply defined_false.
Qed.

End IncludeFacts.

(* ===================================================================== *)
(** ** How the expander proceeds                                          *)
(* ===================================================================== *)

Module ExpandFacts.
Import Cpp Header.

Section Expand.
Context (env : gmap string macro) (loc : location).

Lemma expand_nil f : expand (S f) env loc [] = Some [].
Proof. reflexivity. Qed.

Lemma expand_skip f t rest :
  inertb env t = true →
  expand (S f) env loc (t :: rest) = r ← expand f env loc rest; Some (t :: r).
Proof.
  destruct t as [[s|n|c|p|q] hs]; try reflexivity.
  unfold inertb. simpl. intros H.
  case_bool_decide; [done|]. simpl in H.
  apply andb_true_iff in H as [H H3]. apply andb_true_iff in H as [H1 H2].
  apply negb_true_iff, bool_decide_eq_false in H1, H2.
  apply bool_decide_eq_true in H3.
  rewrite !decide_False by done. by rewrite H3.
Qed.

Lemma expand_inert_app pre rest f :
  forallb (inertb env) pre = true →
  expand (length pre + f) env loc (pre ++ rest) = (pre ++.) <$> expand f env loc rest.
Proof.
  induction pre as [|t pre IH]; intros H; cbn [length app Nat.add forallb] in *.
  - by destruct (expand f env loc rest).
  - apply andb_true_iff in H as [Ht H].
    rewrite expand_skip, IH by done.
    by destruct (expand f env loc rest).
Qed.

Lemma expand_inert ts f :
  forallb (inertb env) ts = true → (length ts < f)%nat →
  expand f env loc ts = Some ts.
Proof.
  intros H Hf.
  replace f with (length ts + S (f - S (length ts)))%nat by lia.
  pose proof (expand_inert_app ts [] (S (f - S (length ts))) H) as E.
  rewrite app_nil_r, expand_nil in E. rewrite E. simpl. by rewrite app_nil_r.
Qed.

Lemma expand_file f hs rest :
  bool_decide ("__FILE__" ∈ hs) = false →
  expand (S f) env loc ((Ident "__FILE__", hs) :: rest)
  = r ← expand f env loc rest; Some ((StrLit (cur_file loc), hs) :: r).
Proof. intros H. simpl. by rewrite H. Qed.

Lemma expand_line f hs rest :
  bool_decide ("__LINE__" ∈ hs) = false →
  expand (S f) env loc ((Ident "__LINE__", hs) :: rest)
  = r ← expand f env loc rest; Some ((Number (cur_line loc), hs) :: r).
Proof. intros H. simpl. by rewrite H. Qed.

Lemma expand_object f s hs body rest :
  bool_decide (s ∈ hs) = false → s ≠ "__FILE__" → s ≠ "__LINE__" →
  env !! s = Some (ObjectLike body) →
  expand (S f) env loc ((Ident s, hs) :: rest)
  = b ← invoke (expand f env loc) (ObjectLike body) [];
    expand f env loc (hsadd (s :: hs) b ++ rest).
Proof.
  intros H H1 H2 He. simpl. rewrite H, !decide_False, He by done. done.
Qed.

Lemma expand_function f s hs hs0 ps va body toks :
  bool_decide (s ∈ hs) = false → s ≠ "__FILE__" → s ≠ "__LINE__" →
  env !! s = Some (FunctionLike ps va body) →
  expand (S f) env loc ((Ident s, hs) :: (Punct LParen, hs0) :: toks)
  = '(actuals, hs', rest) ← collect_args O toks;
    b ← invoke (expand f env loc) (FunctionLike ps va body) actuals;
    expand f env loc (hsadd (s :: hide_inter hs hs') b ++ rest).
Proof.
  intros H H1 H2 He. simpl. rewrite H, !decide_False, He by done. done.
Qed.

End Expand.

Lemma push_tokens_cons x a r :
  foldr push_token (a :: r) x = (x ++ a) :: r.
Proof. induction x as [|t x IH]; [done|]. simpl. by rewrite IH. Qed.

Lemma collect_args_arg d x d' ts :
  arg_depth d x = Some d' →
  collect_args d (x ++ ts)
  = '(args, hs, r) ← collect_args d' ts; Some (foldr push_token args x, hs, r).
Proof.
  revert d. induction x as [|t x IH]; intros d H; simpl in *.
  - injection H as <-. by destruct (collect_args d ts) as [[[args hs] r]|].
  - destruct t as [[s|n|c|[]|q] hs0]; simpl in *;
      try (rewrite (IH _ H); by destruct (collect_args d' ts) as [[[args hs] r]|]);
      destruct d; try discriminate;
      rewrite (IH _ H); by destruct (collect_args d' ts) as [[[args hs] r]|].
Qed.

Lemma collect_args_close hs rest :
  collect_args O ((Punct RParen, hs) :: rest) = Some ([[]], hs, rest).
Proof. reflexivity. Qed.

(** The argument list [a1 , a2 , ... , an )] of whole arguments. *)
Lemma collect_args_whole a args hs rest :
  Forall (λ x, arg_depth O x = Some O) (a :: args) →
  collect_args O (join_commas (a :: args) ++ (Punct RParen, hs) :: rest)
  = Some (a :: args, hs, rest).
Proof.
  revert a. induction args as [|b args IH]; intros a H.
  - apply Forall_cons in H as [Ha _]. simpl.
    rewrite (collect_args_arg _ _ _ _ Ha), collect_args_close. simpl.
    by rewrite push_tokens_cons, app_nil_r.
  - apply Forall_cons in H as [Ha H].
    change (join_commas (a :: b :: args)) with (a ++ (Punct Comma, []) :: join_commas (b :: args)).
    rewrite <- app_assoc. rewrite (collect_args_arg _ _ _ _ Ha).
    cbn [app collect_args fst]. rewrite (IH _ H). simpl.
    by rewrite push_tokens_cons, app_nil_r.
Qed.

#[local] Arguments expand : simpl never.

(** *** Hide sets do not show in the output *)

Lemma strip_hsadd hs ts : strip (hsadd hs ts) = strip ts.
Proof. unfold strip, hsadd. rewrite map_map. by apply map_ext. Qed.

Lemma strip_fresh ts : strip (fresh ts) = ts.
Proof. unfold strip, fresh. rewrite map_map. simpl. by rewrite map_id. Qed.

Lemma strip_app a b : strip (a ++ b) = strip a ++ strip b.
Proof. apply map_app. Qed.

Lemma inertb_hsadd env hs t :
  inertb env t = true → inertb env (t.1, hs ++ t.2) = true.
Proof.
  destruct t as [[s| | | |] h]; try done. unfold inertb. simpl.
  intros [H|H]%orb_true_iff; apply orb_true_iff; [left|by right].
  apply bool_decide_eq_true. apply bool_decide_eq_true in H.
  apply elem_of_app. by right.
Qed.

Lemma inert_hsadd env hs ts :
  forallb (inertb env) ts = true → forallb (inertb env) (hsadd hs ts) = true.
Proof.
  induction ts as [|t ts IH]; [done|]. simpl.
  intros [H1 H2]%andb_true_iff. apply andb_true_iff. split; [|by apply IH].
  by apply inertb_hsadd.
Qed.

(** *** The replacement of each function-like macro of the header *)

Section Invoke.
Context (exp : list htoken → option (list htoken)).

Lemma invoke_aligned s s' :
  exp s = Some s' →
  invoke exp aligned_def [s]
  = Some (fresh [Ident "__attribute__"; Punct LParen; Punct LParen;
                 Ident "aligned"; Punct LParen]
          ++ s' ++ fresh [Punct RParen; Punct RParen; Punct RParen]).
Proof. intros H. unfold invoke, aligned_def. simpl. by rewrite H. Qed.

Lemma invoke_likely x x' :
  exp x = Some x' →
  invoke exp likely_def [x]
  = Some (fresh [Ident "__builtin_expect"; Punct LParen; Punct Bang; Punct Bang;
                 Punct LParen]
          ++ x' ++ fresh [Punct RParen; Punct Comma; Number 1; Punct RParen]).
Proof. intros H. unfold invoke, likely_def. simpl. by rewrite H. Qed.

Lemma invoke_unlikely x x' :
  exp x = Some x' →
  invoke exp unlikely_def [x]
  = Some (fresh [Ident "__builtin_expect"; Punct LParen; Punct Bang; Punct Bang;
                 Punct LParen]
          ++ x' ++ fresh [Punct RParen; Punct Comma; Number 0; Punct RParen]).
Proof. intros H. unfold invoke, unlikely_def. simpl. by rewrite H. Qed.

Lemma invoke_debug_on fmt fmt' args :
  exp fmt = Some fmt' →
  invoke exp debug_on_def (fmt :: args)
  = Some (fresh [Ident "printf"; Punct LParen; StrLit "FILE: "; Ident "__FILE__";
                 StrLit ", LINE: %d: "]
          ++ fmt'
          ++ fresh [StrLit "\n"; Punct Comma; Ident "__LINE__"]
          ++ comma_args args ++ fresh [Punct RParen]).
Proof.
  intros H. unfold invoke, debug_on_def.
  cbn [bind_args va_name length mbind option_bind].
  rewrite decide_True by (simpl; lia).
  destruct args as [|a args].
  - rewrite decide_False by (simpl; lia). simpl. by rewrite H.
  - rewrite decide_True by (simpl; lia).
    cbn [zip zip_with app drop length mbind option_bind comma_args].
    change (drop 0 (a :: args)) with (a :: args).
    generalize (join_commas (a :: args)). intros va.
    simpl. by rewrite H.
Qed.

Lemma invoke_debug_off a args :
  invoke exp debug_off_def (a :: args) = Some [].
Proof.
  unfold invoke, debug_off_def.
  cbn [bind_args va_name length mbind option_bind].
  rewrite decide_True by (simpl; lia).
  by destruct (decide (length ["format"] < S (length args))%nat).
Qed.

End Invoke.

(** *** Object-like macros of the header *)

Section Constants.
Context (env : gmap string macro) (loc : location).

(** A macro defined as a number, [#define s n], expands to that number. *)
Lemma expand_constant s n hs f :
  s ≠ "__FILE__" → s ≠ "__LINE__" → bool_decide (s ∈ hs) = false →
  env !! s = Some (ObjectLike [Number n]) → (3 ≤ f)%nat →
  expand f env loc [(Ident s, hs)] = Some [(Number n, (s :: hs) ++ [])].
Proof.
  intros H1 H2 Hh He Hf. destruct f as [|[|[|f]]]; try lia.
  by rewrite (expand_object _ _ _ _ _ _ _ Hh H1 H2 He).
Qed.

Lemma preprocess_constant s n f :
  s ≠ "__FILE__" → s ≠ "__LINE__" →
  env !! s = Some (ObjectLike [Number n]) → (3 ≤ f)%nat →
  preprocess f env loc [Ident s] = Some [Number n].
Proof.
  intros H1 H2 He Hf. unfold preprocess. cbn [fresh map].
  by rewrite (expand_constant s n [] f).
Qed.

End Constants.

(** The alignment macros, in any table that holds lines 15 to 18 and
    in which the two words of the attribute are not macros. *)
Section Aligned.
Context (env : gmap string macro) (loc : location).
Hypothesis H_aligned : env !! "ATTRIBUTE_ALIGNED" = Some aligned_def.
Hypothesis H_size : env !! "CACHELINE_SIZE" = Some cacheline_size_def.
Hypothesis H_cl : env !! "CACHELINE_ALIGNED" = Some cacheline_aligned_def.
Hypothesis H_fn : env !! "CACHELINE_ALIGNED_FN" = Some cacheline_aligned_fn_def.
Hypothesis H_attr : env !! "__attribute__" = None.
Hypothesis H_al : env !! "aligned" = None.

Lemma expand_cacheline_aligned hs f :
  hs = [] ∨ hs = ["CACHELINE_ALIGNED_FN"] → (12 ≤ f)%nat →
  strip <$> expand f env loc [(Ident "CACHELINE_ALIGNED", hs)] = Some aligned_64.
Proof.
  intros Hhs Hf.
  destruct f as [|[|f]]; try lia.
  erewrite expand_object; [| |discriminate|discriminate|exact H_cl].
  2:{ by destruct Hhs as [-> | ->]. }
  simpl.
  erewrite expand_function; [| |discriminate|discriminate|exact H_aligned].
  2:{ by destruct Hhs as [-> | ->]. }
  cbn [collect_args fst snd mbind option_bind push_token].
  erewrite invoke_aligned.
  2:{ apply (expand_constant env loc "CACHELINE_SIZE" 64); try discriminate; try done; try lia.
      by destruct Hhs as [-> | ->]. }
  cbn [mbind option_bind].
  rewrite expand_inert.
  - reflexivity.
  - rewrite app_nil_r. apply inert_hsadd.
    unfold inertb. simpl. rewrite H_attr, H_al. 
    destruct Hhs as [-> | ->]; vm_compute; reflexivity.
  - simpl. lia.
Qed.

Lemma expand_cacheline_aligned_fn f :
  (13 ≤ f)%nat →
  strip <$> expand f env loc [(Ident "CACHELINE_ALIGNED_FN", [])] = Some aligned_64.
Proof.
  intros Hf. destruct f as [|f]; try lia.
  erewrite expand_object; [|done|discriminate|discriminate|exact H_fn].
  cbn [invoke subst lookup_binding mbind option_bind hsadd map app fst snd].
  apply expand_cacheline_aligned; [by right|lia].
Qed.

End Aligned.

(** *** Invocations written in the source *)

Lemma fresh_app a b : fresh (a ++ b) = fresh a ++ fresh b.
Proof. apply map_app. Qed.

Lemma hsadd_app hs a b : hsadd hs (a ++ b) = hsadd hs a ++ hsadd hs b.
Proof. apply map_app. Qed.

Lemma forallb_app_true {A} (p : A → bool) a b :
  forallb p a = true → forallb p b = true → forallb p (a ++ b) = true.
Proof. intros Ha Hb. rewrite forallb_app. by rewrite Ha, Hb. Qed.

Lemma length_strip ts : length (strip ts) = length ts.
Proof. apply length_map. Qed.

Lemma length_fresh ts : length (fresh ts) = length ts.
Proof. apply length_map. Qed.

Lemma length_hsadd hs ts : length (hsadd hs ts) = length ts.
Proof. apply length_map. Qed.

Lemma fresh_strip_join (l : list (list token)) :
  fresh (strip (join_commas (map fresh l))) = join_commas (map fresh l).
Proof.
  induction l as [|a [|b l] IH]; [done| |].
  - simpl. by rewrite strip_fresh.
  - change (join_commas (map fresh (a :: b :: l)))
      with (fresh a ++ (Punct Comma, []) :: join_commas (map fresh (b :: l))).
    rewrite strip_app, fresh_app, strip_fresh. simpl. f_equal. f_equal.
    apply IH.
Qed.

Lemma fresh_call f l :
  fresh (call f l)
  = (Ident f, []) :: (Punct LParen, []) :: join_commas (map fresh l) ++ [(Punct RParen, [])].
Proof.
  unfold call. cbn [fresh map]. f_equal. f_equal.
  change (map (λ t, (t, [])) ?x) with (fresh x).
  by rewrite fresh_app, fresh_strip_join.
Qed.

Lemma whole_args (l : list (list token)) :
  forallb one_arg l = true →
  Forall (λ x, arg_depth O x = Some O) (map fresh l).
Proof.
  induction l as [|a l IH]; intros H; simpl in *; [constructor|].
  apply andb_true_iff in H as [Ha H]. constructor; [|by apply IH].
  by apply bool_decide_eq_true in Ha.
Qed.

Lemma inert_join env (l : list (list token)) :
  forallb (λ a, forallb (inertb env) (fresh a)) l = true →
  forallb (inertb env) (join_commas (map fresh l)) = true.
Proof.
  induction l as [|a [|b l] IH]; [done| |].
  - simpl. by rewrite andb_true_r.
  - intros [Ha H]%andb_true_iff.
    change (join_commas (map fresh (a :: b :: l)))
      with (fresh a ++ (Punct Comma, []) :: join_commas (map fresh (b :: l))).
    apply forallb_app_true; [done|]. simpl. by apply IH.
Qed.

Section Calls.
Context (env : gmap string macro) (loc : location).

Lemma expand_inert_prefix pre rest f :
  forallb (inertb env) pre = true → (length pre ≤ f)%nat →
  expand f env loc (pre ++ rest) = (pre ++.) <$> expand (f - length pre) env loc rest.
Proof.
  intros H Hf. rewrite <- (expand_inert_app env loc pre rest _ H).
  f_equal. lia.
Qed.

(** A whole invocation and what follows it. *)
Lemma expand_call s ps va body a args rest f :
  s ≠ "__FILE__" → s ≠ "__LINE__" →
  env !! s = Some (FunctionLike ps va body) →
  forallb one_arg (a :: args) = true →
  expand (S f) env loc (fresh (call s (a :: args)) ++ rest)
  = b ← invoke (expand f env loc) (FunctionLike ps va body) (map fresh (a :: args));
    expand f env loc (hsadd [s] b ++ rest).
Proof.
  intros H1 H2 He Hw. rewrite fresh_call. cbn [app].
  erewrite expand_function; [|done|done|done|exact He].
  rewrite <- app_assoc. cbn [app].
  change (map fresh (a :: args)) with (fresh a :: map fresh args).
  rewrite collect_args_whole by (by apply (whole_args (a :: args))).
  reflexivity.
Qed.
(** [likely(x)] and [unlikely(x)] for an argument free of macro names. *)
Lemma likely_call x f :
  env !! "likely" = Some likely_def → env !! "__builtin_expect" = None →
  one_arg x = true → forallb (inertb env) (fresh x) = true →
  (length x + 11 ≤ f)%nat →
  preprocess f env loc (call "likely" [x])
  = Some ([Ident "__builtin_expect"; Punct LParen; Punct Bang; Punct Bang; Punct LParen]
          ++ x ++ [Punct RParen; Punct Comma; Number 1; Punct RParen]).
Proof.
  intros He Hb Hx Hi Hf. unfold preprocess.
  destruct f as [|f]; [lia|].
  rewrite <- (app_nil_r (fresh _)).
  erewrite expand_call; [|discriminate|discriminate|exact He|by simpl; rewrite Hx].
  cbn [map]. erewrite invoke_likely.
  2:{ apply expand_inert; [done|]. rewrite length_fresh. lia. }
  cbn [mbind option_bind]. rewrite app_nil_r, expand_inert.
  - simpl. by rewrite strip_hsadd, !strip_app, !strip_fresh.
  - apply inert_hsadd. repeat apply forallb_app_true; try done.
    unfold inertb. simpl. by rewrite Hb.
  - rewrite length_hsadd, !length_app, !length_fresh. simpl. lia.
Qed.

Lemma unlikely_call x f :
  env !! "unlikely" = Some unlikely_def → env !! "__builtin_expect" = None →
  one_arg x = true → forallb (inertb env) (fresh x) = true →
  (length x + 11 ≤ f)%nat →
  preprocess f env loc (call "unlikely" [x])
  = Some ([Ident "__builtin_expect"; Punct LParen; Punct Bang; Punct Bang; Punct LParen]
          ++ x ++ [Punct RParen; Punct Comma; Number 0; Punct RParen]).
Proof.
  intros He Hb Hx Hi Hf. unfold preprocess.
  destruct f as [|f]; [lia|].
  rewrite <- (app_nil_r (fresh _)).
  erewrite expand_call; [|discriminate|discriminate|exact He|by simpl; rewrite Hx].
  cbn [map]. erewrite invoke_unlikely.
  2:{ apply expand_inert; [done|]. rewrite length_fresh. lia. }
  cbn [mbind option_bind]. rewrite app_nil_r, expand_inert.
  - simpl. by rewrite strip_hsadd, !strip_app, !strip_fresh.
  - apply inert_hsadd. repeat apply forallb_app_true; try done.
    unfold inertb. simpl. by rewrite Hb.
  - rewrite length_hsadd, !length_app, !length_fresh. simpl. lia.
Qed.

End Calls.

(** *** The two forms of [DEBUG] *)

Ltac solve_length :=
  rewrite ?length_hsadd, ?length_app, ?length_fresh, ?length_hsadd, ?length_app,
    ?length_fresh; cbn [length]; lia.

Lemma strip_cons t ts : strip (t :: ts) = t.1 :: strip ts.
Proof. reflexivity. Qed.

Lemma strip_nil : strip [] = [].
Proof. reflexivity. Qed.

Section Debug.
Context (env : gmap string macro) (loc : location).

Lemma expand_file_step hs rest f :
  bool_decide ("__FILE__" ∈ hs) = false → (1 ≤ f)%nat →
  expand f env loc ((Ident "__FILE__", hs) :: rest)
  = r ← expand (f - 1) env loc rest; Some ((StrLit (cur_file loc), hs) :: r).
Proof.
  intros H Hf. destruct f as [|f]; [lia|]. rewrite expand_file by done.
  by replace (S f - 1)%nat with f by lia.
Qed.

Lemma expand_line_step hs rest f :
  bool_decide ("__LINE__" ∈ hs) = false → (1 ≤ f)%nat →
  expand f env loc ((Ident "__LINE__", hs) :: rest)
  = r ← expand (f - 1) env loc rest; Some ((Number (cur_line loc), hs) :: r).
Proof.
  intros H Hf. destruct f as [|f]; [lia|]. rewrite expand_line by done.
  by replace (S f - 1)%nat with f by lia.
Qed.

Lemma inert_comma_args args :
  forallb (inertb env) (join_commas args) = true →
  forallb (inertb env) (comma_args args) = true.
Proof. by destruct args. Qed.

Lemma length_comma_args args :
  (length (comma_args args) ≤ S (length (join_commas args)))%nat.
Proof. destruct args; simpl; lia. Qed.

(** An invocation of line 25's [DEBUG] with arguments free of macro
    names: the replacement is rescanned, [__FILE__] and [__LINE__] are
    replaced, everything else stays. *)
Lemma debug_on_call fmt args f :
  env !! "DEBUG" = Some debug_on_def → env !! "printf" = None →
  forallb one_arg (fmt :: args) = true →
  forallb (λ a, forallb (inertb env) (fresh a)) (fmt :: args) = true →
  (length (call "DEBUG" (fmt :: args)) + 12 ≤ f)%nat →
  preprocess f env loc (call "DEBUG" (fmt :: args))
  = Some ([Ident "printf"; Punct LParen; StrLit "FILE: "; StrLit (cur_file loc);
           StrLit ", LINE: %d: "]
          ++ fmt
          ++ [StrLit "\n"; Punct Comma; Number (cur_line loc)]
          ++ strip (comma_args (map fresh args))
          ++ [Punct RParen]).
Proof.
  intros He Hp Hw Hi Hf. unfold preprocess.
  assert (length fmt + length (join_commas (map fresh args)) + 3 ≤ length (call "DEBUG" (fmt :: args)))%nat as Hlen.
  { unfold call. cbn [length]. rewrite length_app, length_strip. 
    destruct args as [|b args].
    - simpl. rewrite length_fresh. lia.
    - change (join_commas (map fresh (fmt :: b :: args)))
        with (fresh fmt ++ (Punct Comma, []) :: join_commas (map fresh (b :: args))).
      rewrite length_app, length_fresh. simpl. lia. }
  simpl in Hi. apply andb_true_iff in Hi as [Hif Hia].
  pose proof (inert_join env args Hia) as Hva.
  destruct f as [|f]; [lia|].
  rewrite <- (app_nil_r (fresh _)).
  erewrite expand_call; [|discriminate|discriminate|exact He|done].
  cbn [map]. erewrite invoke_debug_on.
  2:{ apply expand_inert; [done|]. rewrite length_fresh. lia. }
  cbn [mbind option_bind]. rewrite app_nil_r.
  set (va := comma_args (map fresh args)).
  assert (forallb (inertb env) va = true) as Hva' by by apply inert_comma_args.
  assert (length va ≤ S (length (join_commas (map fresh args))))%nat as Hlva
    by apply length_comma_args.
  replace (hsadd ["DEBUG"] _) with
    (hsadd ["DEBUG"] (fresh [Ident "printf"; Punct LParen; StrLit "FILE: "])
     ++ (Ident "__FILE__", ["DEBUG"])
     :: hsadd ["DEBUG"] (fresh [StrLit ", LINE: %d: "] ++ fresh fmt
                         ++ fresh [StrLit "\n"; Punct Comma])
     ++ (Ident "__LINE__", ["DEBUG"])
     :: hsadd ["DEBUG"] (va ++ fresh [Punct RParen])).
  2:{ rewrite !hsadd_app. simpl. rewrite <- !app_assoc. reflexivity. }
  rewrite expand_inert_prefix; [| |simpl; lia].
  2:{ unfold inertb. simpl. by rewrite Hp. }
  rewrite expand_file_step; [|done|simpl; lia].
  rewrite expand_inert_prefix.
  2:{ apply inert_hsadd. by repeat apply forallb_app_true. }
  2:{ solve_length. }
  rewrite expand_line_step; [|done|].
  2:{ solve_length. }
  rewrite expand_inert.
  2:{ apply inert_hsadd. by apply forallb_app_true. }
  2:{ solve_length. }
  cbn [fmap option_fmap option_map mbind option_bind]. f_equal.
  repeat (rewrite ?strip_app, ?strip_hsadd, ?strip_fresh, ?strip_cons, ?strip_nil).
  cbn [fst]. rewrite <- !app_assoc. reflexivity.
Qed.

(** An invocation of line 27's [DEBUG] leaves no token, whatever its
    arguments are: they are not even expanded. *)
Lemma debug_off_call a args rest f :
  env !! "DEBUG" = Some debug_off_def →
  forallb one_arg (a :: args) = true →
  expand (S f) env loc (fresh (call "DEBUG" (a :: args)) ++ rest)
  = expand f env loc rest.
Proof.
  intros He Hw.
  erewrite expand_call; [|discriminate|discriminate|exact He|done].
  cbn [map]. by rewrite invoke_debug_off.
Qed.

End Debug.

End ExpandFacts.

(* ===================================================================== *)
(** ** Values of the expanded branch hints; the null statement            *)
(* ===================================================================== *)

Module CSemFacts.
Import Cpp Header CSem ExpandFacts.

Lemma truth_of_bool b : truth (of_bool b) = b.
Proof. by destruct b. Qed.

Lemma to_long_of_bool (b : bool) :
  to_long (if b then 1 else 0) = (if b then 1 else 0)%Z.
Proof. by destruct b. Qed.

(** [!!(x)] is the truth value of [x], and evaluates [x] once. *)
Lemma eval_not_not lib x σ v σ' :
  eval lib x σ = Some (v, σ') →
  eval lib (ENot (ENot (EParen x))) σ = Some (of_bool (truth v), σ').
Proof.
  intros H. simpl. rewrite H. simpl. by destruct (truth v).
Qed.

Lemma eval_builtin_expect lib e c σ b σ' :
  eval lib e σ = Some (of_bool b, σ') →
  eval lib (ECall "__builtin_expect" [e; EConst c]) σ = Some (of_bool b, σ').
Proof.
  intros H. simpl. rewrite H. simpl. by destruct b.
Qed.

Lemma eval_likely lib x σ v σ' :
  eval lib x σ = Some (v, σ') →
  eval lib (likely x) σ = Some (of_bool (truth v), σ').
Proof. intros H. by apply eval_builtin_expect, eval_not_not. Qed.

Lemma eval_unlikely lib x σ v σ' :
  eval lib x σ = Some (v, σ') →
  eval lib (unlikely x) σ = Some (of_bool (truth v), σ').
Proof. intros H. by apply eval_builtin_expect, eval_not_not. Qed.

Lemma print_likely exp x :
  exp (fresh (print_expr x)) = Some (fresh (print_expr x)) →
  strip <$> invoke exp likely_def [fresh (print_expr x)] = Some (print_expr (likely x)).
Proof.
  intros H. rewrite (invoke_likely _ _ _ H). simpl.
  rewrite strip_app, strip_fresh. f_equal. simpl. 
  by rewrite <- !app_assoc.
Qed.

Lemma print_unlikely exp x :
  exp (fresh (print_expr x)) = Some (fresh (print_expr x)) →
  strip <$> invoke exp unlikely_def [fresh (print_expr x)] = Some (print_expr (unlikely x)).
Proof.
  intros H. rewrite (invoke_unlikely _ _ _ H). simpl.
  rewrite strip_app, strip_fresh. f_equal. simpl. 
  by rewrite <- !app_assoc.
Qed.

Lemma print_expr_nonempty e : print_expr e ≠ [].
Proof. by destruct e. Qed.

Lemma null_statement s : print_stmt s = [Punct Semi] → s = SNull.
Proof.
  destruct s as [|e]; [done|]. simpl. intros H.
  destruct (print_expr e) as [|t [|t' l]] eqn:E; try discriminate.
  by destruct (print_expr_nonempty e).
Qed.

End CSemFacts.

(* ===================================================================== *)
(** ** The properties of the header                                       *)
(* ===================================================================== *)

Import Cpp Header CSem TableFacts IncludeFacts ExpandFacts CSemFacts.

(** C1.  After a first reading of the header, [CACHELINE_SIZE] is the
    object-like macro whose replacement list is the number 64, and the
    text [CACHELINE_SIZE] preprocesses to [64]. *)
Theorem cacheline_size_is_64 st loc fuel :
  first_reading st = true → (3 ≤ fuel)%nat →
  macros (include_common st) !! "CACHELINE_SIZE" = Some (ObjectLike [Number 64])
  ∧ preprocess fuel (macros (include_common st)) loc [Ident "CACHELINE_SIZE"]
    = Some [Number 64].
Proof.
  intros Hr Hf.
  assert (macros (include_common st) !! "CACHELINE_SIZE"
          = Some (ObjectLike [Number 64])) as He.
  { apply plain_entry; [done|]. by_compute. }
  split; [done|]. by apply preprocess_constant.
Qed.

Lemma cacheline_size_is_64_witness :
  first_reading (empty_unit true) = true
  ∧ macros (include_common (empty_unit true)) !! "CACHELINE_SIZE"
    = Some (ObjectLike [Number 64])
  ∧ preprocess 3 (macros (include_common (empty_unit true))) (Loc "main.cpp" 1)
      [Ident "CACHELINE_SIZE"] = Some [Number 64].
Proof.
  split; [vm_compute; reflexivity|].
  apply (cacheline_size_is_64 (empty_unit true) (Loc "main.cpp" 1) 3).
  - vm_compute; reflexivity.
  - lia.
Defined.

(** C2.  Inclusion is idempotent: whatever the state of the translation
    unit, including the header twice leaves exactly the state that
    including it once leaves (same macro table, same diagnostics, hence
    no redefinition diagnostic from the second reading); and a reading
    that finds the guard symbol [COMMON_HPP] defined changes no macro
    definition and reports nothing, whether or not the compiler
    implements [#pragma once]. *)
Theorem include_idempotent st :
  include_common (include_common st) = include_common st
  ∧ (defined st "COMMON_HPP" = true →
     macros (include_common st) = macros st ∧ diags (include_common st) = diags st).
Proof.
  split.
  - rewrite (include_common_not_first (include_common st)) by apply first_reading_after.
    case_bool_decide as Ho; [done|].
    rewrite honours_once_include.
    destruct (honours_once st) eqn:E; [|done].
    destruct Ho. by apply once_marked.
  - intros Hg. rewrite include_common_not_first.
    + case_bool_decide; [done|]. by destruct (honours_once st).
    + unfold first_reading. by rewrite Hg.
Qed.

Lemma include_idempotent_witness :
  let st := define "COMMON_HPP" guard_def [] (empty_unit false) in
  defined st "COMMON_HPP" = true
  ∧ macros (include_common st) = macros st ∧ diags (include_common st) = diags st.
Proof.
  intros st. split; [vm_compute; reflexivity|].
  apply (proj2 (include_idempotent st)). vm_compute; reflexivity.
Defined.

(** C3.  For every invocation [DEBUG(format, args...)] whose arguments
    are whole arguments: if [__DEBUG] is defined where the header is
    read, [DEBUG] is the macro of line 25, the invocation is replaced by
    the [printf] call of that line with [format] in its format string
    and the variable arguments after [__LINE__] (the comma before them
    is dropped when they are omitted, and kept when they are present,
    be it as one empty argument), and, when [printf] is not a macro and
    the arguments hold no macro name, the invocation preprocesses to
    [printf("FILE: " <file> ", LINE: %d: " format "\n", <line>, args)];
    if [__DEBUG] is not defined, [DEBUG] is the macro of line 27 and the
    invocation preprocesses to no token at all. *)
Theorem debug_expansion st loc fuel fmt args :
  first_reading st = true →
  forallb one_arg (fmt :: args) = true →
  (length (call "DEBUG" (fmt :: args)) + 12 ≤ fuel)%nat →
  let env := macros (include_common st) in
  (defined st "__DEBUG" = true →
     env !! "DEBUG" = Some debug_on_def
     ∧ (∀ exp fmt', exp (fresh fmt) = Some fmt' →
          invoke exp debug_on_def (map fresh (fmt :: args))
          = Some (fresh [Ident "printf"; Punct LParen; StrLit "FILE: ";
                         Ident "__FILE__"; StrLit ", LINE: %d: "]
                  ++ fmt'
                  ++ fresh [StrLit "\n"; Punct Comma; Ident "__LINE__"]
                  ++ comma_args (map fresh args)
                  ++ fresh [Punct RParen]))
     ∧ (defined st "printf" = false →
        forallb (λ a, forallb (inertb env) (fresh a)) (fmt :: args) = true →
        preprocess fuel env loc (call "DEBUG" (fmt :: args))
        = Some ([Ident "printf"; Punct LParen; StrLit "FILE: ";
                 StrLit (cur_file loc); StrLit ", LINE: %d: "]
                ++ fmt
                ++ [StrLit "\n"; Punct Comma; Number (cur_line loc)]
                ++ strip (comma_args (map fresh args))
                ++ [Punct RParen])))
  ∧ (defined st "__DEBUG" = false →
     env !! "DEBUG" = Some debug_off_def
     ∧ preprocess fuel env loc (call "DEBUG" (fmt :: args)) = Some []).
Proof.
  intros Hr Hw Hf env.
  pose proof (debug_entry st Hr) as He. fold env in He.
  split; intros Hd; rewrite Hd in He; (split; [done|]).
  - split.
    + intros exp fmt' Hexp. by apply invoke_debug_on.
    + intros Hp Hi. apply debug_on_call; try done.
      apply untouched; [by_compute|done].
  - unfold preprocess. destruct fuel as [|[|fuel]]; try lia.
    rewrite <- (app_nil_r (fresh _)).
    by rewrite debug_off_call.
Qed.

Lemma debug_expansion_witness :
  let src := call "DEBUG" [[StrLit "x=%d"]; [Ident "x"]] in
  let loc := Loc "main.cpp" 7 in
  let st_on := define "__DEBUG" (ObjectLike []) [] (empty_unit true) in
  preprocess 20 (macros (include_common st_on)) loc src
  = Some [Ident "printf"; Punct LParen; StrLit "FILE: "; StrLit "main.cpp";
          StrLit ", LINE: %d: "; StrLit "x=%d"; StrLit "\n"; Punct Comma;
          Number 7; Punct Comma; Ident "x"; Punct RParen]
  ∧ preprocess 20 (macros (include_common st_on)) loc
      (call "DEBUG" [[StrLit "done"]; []])
    = Some [Ident "printf"; Punct LParen; StrLit "FILE: "; StrLit "main.cpp";
            StrLit ", LINE: %d: "; StrLit "done"; StrLit "\n"; Punct Comma;
            Number 7; Punct Comma; Punct RParen]
  ∧ preprocess 20 (macros (include_common (empty_unit true))) loc src = Some [].
Proof.
  intros src loc st_on. split; [|split].
  - refine (proj2 (proj2 (proj1
      (debug_expansion st_on loc 20 [StrLit "x=%d"] [[Ident "x"]] _ _ _) _)) _ _);
      vm_compute; try first [reflexivity | lia].
  - refine (proj2 (proj2 (proj1
      (debug_expansion st_on loc 20 [StrLit "done"] [[]] _ _ _) _)) _ _);
      vm_compute; try first [reflexivity | lia].
  - refine (proj2 (proj2
      (debug_expansion (empty_unit true) loc 20 [StrLit "x=%d"] [[Ident "x"]] _ _ _) _));
      vm_compute; try first [reflexivity | lia].
Defined.

(** C4.  After a first reading of the header both feature flags are
    off: [USE_COMPRESSED_PTRS] and [USE_SIZE_CACHES] are defined as the
    number 0 and preprocess to [0]. *)
Theorem feature_flags_disabled st loc fuel :
  first_reading st = true → (3 ≤ fuel)%nat →
  let env := macros (include_common st) in
  env !! "USE_COMPRESSED_PTRS" = Some (ObjectLike [Number 0])
  ∧ env !! "USE_SIZE_CACHES" = Some (ObjectLike [Number 0])
  ∧ preprocess fuel env loc [Ident "USE_COMPRESSED_PTRS"] = Some [Number 0]
  ∧ preprocess fuel env loc [Ident "USE_SIZE_CACHES"] = Some [Number 0].
Proof.
  intros Hr Hf env.
  assert (env !! "USE_COMPRESSED_PTRS" = Some (ObjectLike [Number 0])) as H1.
  { apply plain_entry; [done|]. by_compute. }
  assert (env !! "USE_SIZE_CACHES" = Some (ObjectLike [Number 0])) as H2.
  { apply plain_entry; [done|]. by_compute. }
  repeat split; try done; by apply preprocess_constant.
Qed.

Lemma feature_flags_disabled_witness :
  let env := macros (include_common (empty_unit false)) in
  first_reading (empty_unit false) = true
  ∧ env !! "USE_COMPRESSED_PTRS" = Some (ObjectLike [Number 0])
  ∧ env !! "USE_SIZE_CACHES" = Some (ObjectLike [Number 0])
  ∧ preprocess 3 env (Loc "main.cpp" 1) [Ident "USE_COMPRESSED_PTRS"] = Some [Number 0]
  ∧ preprocess 3 env (Loc "main.cpp" 1) [Ident "USE_SIZE_CACHES"] = Some [Number 0].
Proof.
  intros env. split; [vm_compute; reflexivity|].
  apply (feature_flags_disabled (empty_unit false) (Loc "main.cpp" 1) 3).
  - vm_compute; reflexivity.
  - lia.
Defined.

(** C5.  [CACHELINE_ALIGNED_FN] is an alias of [CACHELINE_ALIGNED]: its
    replacement list is the name [CACHELINE_ALIGNED], whose replacement
    list is [ATTRIBUTE_ALIGNED(CACHELINE_SIZE)], and (where
    [__attribute__] and [aligned] are not macros themselves) both names
    preprocess to the same tokens, [__attribute__((aligned(64)))]. *)
Theorem cacheline_aligned_fn_alias st loc fuel :
  first_reading st = true →
  defined st "__attribute__" = false → defined st "aligned" = false →
  (13 ≤ fuel)%nat →
  let env := macros (include_common st) in
  env !! "CACHELINE_ALIGNED_FN" = Some (ObjectLike [Ident "CACHELINE_ALIGNED"])
  ∧ env !! "CACHELINE_ALIGNED"
    = Some (ObjectLike (call "ATTRIBUTE_ALIGNED" [[Ident "CACHELINE_SIZE"]]))
  ∧ preprocess fuel env loc [Ident "CACHELINE_ALIGNED"] = Some aligned_64
  ∧ preprocess fuel env loc [Ident "CACHELINE_ALIGNED_FN"] = Some aligned_64.
Proof.
  intros Hr Hat Hal Hf env.
  assert (env !! "ATTRIBUTE_ALIGNED" = Some aligned_def) as H1
    by (apply plain_entry; [done|by_compute]).
  assert (env !! "CACHELINE_SIZE" = Some cacheline_size_def) as H2
    by (apply plain_entry; [done|by_compute]).
  assert (env !! "CACHELINE_ALIGNED" = Some cacheline_aligned_def) as H3
    by (apply plain_entry; [done|by_compute]).
  assert (env !! "CACHELINE_ALIGNED_FN" = Some cacheline_aligned_fn_def) as H4
    by (apply plain_entry; [done|by_compute]).
  assert (env !! "__attribute__" = None) as H5
    by (apply untouched; [by_compute|done]).
  assert (env !! "aligned" = None) as H6
    by (apply untouched; [by_compute|done]).
  split; [done|]. split; [done|]. split.
  - apply expand_cacheline_aligned; try done; [by left|lia].
  - by apply expand_cacheline_aligned_fn.
Qed.

Lemma cacheline_aligned_fn_alias_witness :
  let env := macros (include_common (empty_unit true)) in
  preprocess 13 env (Loc "main.cpp" 1) [Ident "CACHELINE_ALIGNED"]
  = Some [Ident "__attribute__"; Punct LParen; Punct LParen; Ident "aligned";
          Punct LParen; Number 64; Punct RParen; Punct RParen; Punct RParen]
  ∧ preprocess 13 env (Loc "main.cpp" 1) [Ident "CACHELINE_ALIGNED_FN"]
  = Some [Ident "__attribute__"; Punct LParen; Punct LParen; Ident "aligned";
          Punct LParen; Number 64; Punct RParen; Punct RParen; Punct RParen].
Proof.
  intros env.
  refine (proj2 (proj2
    (cacheline_aligned_fn_alias (empty_unit true) (Loc "main.cpp" 1) 13 _ _ _ _)));
    vm_compute; reflexivity.
Defined.

(** C6.  Where the header defines them (a first reading with [likely]
    not defined before), [likely] and [unlikely] are the macros of lines
    7 and 8: for every argument [x], an invocation is replaced by
    [__builtin_expect(!!(x), 1)] for [likely] and by
    [__builtin_expect(!!(x), 0)] for [unlikely], with the expanded
    argument in the place of [x]; and when [__builtin_expect] is not a
    macro and [x] holds no macro name these are the tokens the
    invocation preprocesses to. *)
Theorem branch_hints_wrap_builtin_expect st loc fuel x exp x' :
  first_reading st = true → defined st "likely" = false →
  one_arg x = true → exp (fresh x) = Some x' →
  let env := macros (include_common st) in
  env !! "likely" = Some likely_def
  ∧ env !! "unlikely" = Some unlikely_def
  ∧ invoke exp likely_def [fresh x]
    = Some (fresh [Ident "__builtin_expect"; Punct LParen; Punct Bang; Punct Bang;
                   Punct LParen]
            ++ x' ++ fresh [Punct RParen; Punct Comma; Number 1; Punct RParen])
  ∧ invoke exp unlikely_def [fresh x]
    = Some (fresh [Ident "__builtin_expect"; Punct LParen; Punct Bang; Punct Bang;
                   Punct LParen]
            ++ x' ++ fresh [Punct RParen; Punct Comma; Number 0; Punct RParen])
  ∧ (defined st "__builtin_expect" = false →
     forallb (inertb env) (fresh x) = true → (length x + 11 ≤ fuel)%nat →
     preprocess fuel env loc (call "likely" [x])
     = Some ([Ident "__builtin_expect"; Punct LParen; Punct Bang; Punct Bang;
              Punct LParen] ++ x ++ [Punct RParen; Punct Comma; Number 1; Punct RParen])
     ∧ preprocess fuel env loc (call "unlikely" [x])
       = Some ([Ident "__builtin_expect"; Punct LParen; Punct Bang; Punct Bang;
                Punct LParen] ++ x ++ [Punct RParen; Punct Comma; Number 0; Punct RParen])).
Proof.
  intros Hr Hl Hx Hexp env.
  destruct (hint_entries st Hr Hl) as [H1 H2].
  split; [done|]. split; [done|].
  split; [by apply invoke_likely|]. split; [by apply invoke_unlikely|].
  intros Hb Hi Hf.
  assert (env !! "__builtin_expect" = None) as Hb'
    by (apply untouched; [by_compute|done]).
  split; [by apply likely_call|by apply unlikely_call].
Qed.

Lemma branch_hints_wrap_builtin_expect_witness :
  let x := [Ident "p"; Punct (Op "=="); Number 0] in
  let env := macros (include_common (empty_unit true)) in
  preprocess 14 env (Loc "main.cpp" 1) (call "likely" [x])
  = Some [Ident "__builtin_expect"; Punct LParen; Punct Bang; Punct Bang; Punct LParen;
          Ident "p"; Punct (Op "=="); Number 0;
          Punct RParen; Punct Comma; Number 1; Punct RParen]
  ∧ preprocess 14 env (Loc "main.cpp" 1) (call "unlikely" [x])
  = Some [Ident "__builtin_expect"; Punct LParen; Punct Bang; Punct Bang; Punct LParen;
          Ident "p"; Punct (Op "=="); Number 0;
          Punct RParen; Punct Comma; Number 0; Punct RParen].
Proof.
  intros x env.
  refine (proj2 (proj2 (proj2 (proj2
    (branch_hints_wrap_builtin_expect (empty_unit true) (Loc "main.cpp" 1) 14 x
       Some (fresh x) _ _ _ _)))) _ _ _); vm_compute; reflexivity.
Defined.

(** C7, as stated: the names defined by including the header are exactly
    the thirteen names of the interface.  This fails in the translation
    unit that includes nothing else: the guard symbol [COMMON_HPP] is
    defined as well. *)
Lemma exports_counterexample :
  dom (macros (include_common (empty_unit true))) ≠ list_to_set interface_names.
Proof.
  intros H.
  assert ("COMMON_HPP" ∈ dom (macros (include_common (empty_unit true)))) as Hin.
  { apply elem_of_dom. vm_compute. by eexists. }
  rewrite H in Hin. apply elem_of_list_to_set in Hin. revert Hin. by_compute.
Qed.

(** C7, amended.  A first reading of the header in a unit where [likely]
    is not defined defines exactly the thirteen names of the interface
    and the guard symbol [COMMON_HPP]: these fourteen names are added to
    the names defined before, and every other name keeps its meaning. *)
Theorem exports_with_guard st :
  first_reading st = true → defined st "likely" = false →
  dom (macros (include_common st))
  = list_to_set ("COMMON_HPP" :: interface_names) ∪ dom (macros st)
  ∧ ∀ k, k ∉ "COMMON_HPP" :: interface_names →
         macros (include_common st) !! k = macros st !! k.
Proof.
  intros [Hg Ho]%first_reading_spec Hl. split.
  - rewrite macros_include_common_fresh, dom_define_all, Hl by done.
    reflexivity.
  - intros k Hk. by apply macros_include_common_other.
Qed.

Lemma exports_with_guard_witness :
  first_reading (empty_unit true) = true
  ∧ defined (empty_unit true) "likely" = false
  ∧ dom (macros (include_common (empty_unit true)))
    = list_to_set ("COMMON_HPP" :: interface_names) ∪ dom (macros (empty_unit true)).
Proof.
  split; [vm_compute; reflexivity|]. split; [vm_compute; reflexivity|].
  apply (exports_with_guard (empty_unit true)); vm_compute; reflexivity.
Defined.

(** C8.  In the default configuration ([__DEBUG] not defined where the
    header is read) a statement [DEBUG(a1, ..., an);], whatever its
    arguments, preprocesses to the lone semicolon [;], and the statement
    spelled [;] is the null statement: executing it produces no output
    and leaves the machine as it was. *)
Theorem debug_default_noop st loc fuel a args lib σ :
  first_reading st = true → defined st "__DEBUG" = false →
  forallb one_arg (a :: args) = true → (3 ≤ fuel)%nat →
  preprocess fuel (macros (include_common st)) loc
    (call "DEBUG" (a :: args) ++ [Punct Semi]) = Some [Punct Semi]
  ∧ ∀ s, print_stmt s = [Punct Semi] → exec lib s σ = Some σ.
Proof.
  intros Hr Hd Hw Hf. split.
  - pose proof (debug_entry st Hr) as He. rewrite Hd in He.
    unfold preprocess. destruct fuel as [|[|[|fuel]]]; try lia.
    rewrite fresh_app. by rewrite debug_off_call.
  - intros s Hs. by rewrite (null_statement s Hs).
Qed.

Lemma debug_default_noop_witness :
  let σ := Machine {["i" := VInt 1]} [] in
  let lib : library := λ _ _ _, None in
  preprocess 3 (macros (include_common (empty_unit true))) (Loc "main.cpp" 1)
    (call "DEBUG" [[StrLit "%d"]; [Ident "i"; Punct (Op "=");  Number 2]]
     ++ [Punct Semi]) = Some [Punct Semi]
  ∧ exec lib SNull σ = Some σ.
Proof.
  intros σ lib.
  destruct (debug_default_noop (empty_unit true) (Loc "main.cpp" 1) 3
              [StrLit "%d"] [[Ident "i"; Punct (Op "="); Number 2]] lib σ)
    as [H1 H2]; try (vm_compute; reflexivity).
  split; [exact H1|]. apply H2. reflexivity.
Defined.

(** C9.  The branch hints are transparent.  For every expression [x]
    that evaluates to a scalar [v], [likely(x)] and [unlikely(x)] (the
    expressions the macros of lines 7 and 8 spell, with [x] as their
    argument) both evaluate to 1 if [v] is nonzero and to 0 if it is
    zero, which is the value of [!!(x)], and leave the machine in the
    state the one evaluation of [x] leaves it in. *)
Theorem branch_hints_transparent lib x σ v σ' exp :
  eval lib x σ = Some (v, σ') →
  exp (fresh (print_expr x)) = Some (fresh (print_expr x)) →
  strip <$> invoke exp likely_def [fresh (print_expr x)] = Some (print_expr (likely x))
  ∧ strip <$> invoke exp unlikely_def [fresh (print_expr x)] = Some (print_expr (unlikely x))
  ∧ eval lib (likely x) σ = Some (VInt (if truth v then 1 else 0), σ')
  ∧ eval lib (unlikely x) σ = Some (VInt (if truth v then 1 else 0), σ')
  ∧ eval lib (ENot (ENot (EParen x))) σ = Some (VInt (if truth v then 1 else 0), σ').
Proof.
  intros He Hexp.
  split; [by apply print_likely|]. split; [by apply print_unlikely|].
  split; [by apply eval_likely|]. split; [by apply eval_unlikely|].
  by apply eval_not_not.
Qed.

Lemma branch_hints_transparent_witness :
  let σ := Machine ∅ [] in
  let σ' := Machine {["i" := VInt 5]} [] in
  let lib : library := λ _ _ _, None in
  let x := EAssign "i" (EConst 5) in
  eval lib x σ = Some (VInt 5, σ')
  ∧ eval lib (likely x) σ = Some (VInt 1, σ')
  ∧ eval lib (unlikely x) σ = Some (VInt 1, σ').
Proof.
  intros σ σ' lib x.
  destruct (branch_hints_transparent lib x σ (VInt 5) σ' Some)
    as (_ & _ & H1 & H2 & _); try reflexivity.
  split; [reflexivity|]. split; [exact H1|exact H2].
Defined.

(** C10.  The two hints are guarded by the one name [likely]: in every
    state in which [likely] is defined, including the header leaves the
    meaning of both [likely] and [unlikely] as it was (for [unlikely]
    also when that is: not defined). *)
Theorem hints_keep_existing st :
  defined st "likely" = true →
  macros (include_common st) !! "likely" = macros st !! "likely"
  ∧ macros (include_common st) !! "unlikely" = macros st !! "unlikely".
Proof.
  intros Hl.
  destruct (first_reading st) eqn:Hr.
  - apply first_reading_spec in Hr as [Hg Ho].
    rewrite macros_include_common_fresh, Hl by done.
    split; apply macros_define_all_other;
      destruct (defined st "__DEBUG"); by_compute.
  - rewrite include_common_not_first by done.
    case_bool_decide; [done|]. by destruct (honours_once st).
Qed.

Lemma hints_keep_existing_witness :
  let st := define "likely" (FunctionLike ["x"] NoVar [Ident "x"]) [] (empty_unit true) in
  defined st "likely" = true
  ∧ macros (include_common st) !! "likely" = Some (FunctionLike ["x"] NoVar [Ident "x"])
  ∧ macros (include_common st) !! "unlikely" = None.
Proof.
  intros st. split; [vm_compute; reflexivity|].
  apply (hints_keep_existing st). vm_compute; reflexivity.
Defined.

(** The name [unlikely] has no test of its own: with [likely] not
    defined, line 8 defines [unlikely] over whatever it meant before,
    and the clash is diagnosed. *)
Example unlikely_is_not_guarded :
  let st := define "unlikely" (FunctionLike ["x"] NoVar [Ident "x"]) [] (empty_unit true) in
  macros (include_common st) !! "unlikely" = Some unlikely_def
  ∧ diags (include_common st) = [Redefined "unlikely"].
Proof. vm_compute. split; reflexivity. Qed.

(* ===================================================================== *)
(** ** Further properties of the header                                   *)
(* ===================================================================== *)

Module ExtraFacts.

(** The name of a function-like macro that no parenthesis follows is not
    an invocation: it stays. *)
Lemma expand_bare env loc s ps va body rest f :
  s ≠ "__FILE__" → s ≠ "__LINE__" →
  env !! s = Some (FunctionLike ps va body) →
  bool_decide (fst <$> head rest = Some (Punct LParen)) = false →
  expand (S f) env loc ((Ident s, []) :: rest)
  = r ← expand f env loc rest; Some ((Ident s, []) :: r).
Proof.
  intros H1 H2 He Hh. apply bool_decide_eq_false in Hh.
  simpl. rewrite !decide_False, He by done.
  by destruct rest as [|[[x|n|c|[]|q] hs] rest].
Qed.

#[local] Arguments expand : simpl never.

(** *** Diagnostics *)

Lemma diags_define n m g st :
  diags (define n m g st)
  = diags st ++ raised (pedantic st) (table st) n (Def m g).
Proof. reflexivity. Qed.

Lemma clashes_cons strict tbl d ds :
  clashes strict tbl (d :: ds) = raised strict tbl d.1 d.2 ++ clashes strict tbl ds.
Proof. reflexivity. Qed.

Lemma raised_ext strict tbl tbl' n d :
  tbl !! n = tbl' !! n → raised strict tbl n d = raised strict tbl' n d.
Proof. intros H. unfold raised. by rewrite H. Qed.

Lemma clashes_define strict n m g st ds :
  n ∉ ds.*1 →
  clashes strict (table (define n m g st)) ds = clashes strict (table st) ds.
Proof.
  induction ds as [|[k d] ds IH]; intros Hn; [done|].
  apply not_elem_of_cons in Hn as [Hk Hn].
  rewrite !clashes_cons, IH by done.
  f_equal. apply raised_ext. simpl. by apply table_define_ne.
Qed.

Lemma diags_define_all ds st :
  NoDup ds.*1 →
  diags (define_all ds st) = diags st ++ clashes (pedantic st) (table st) ds.
Proof.
  revert st. induction ds as [|[n d] ds IH]; intros st Hnd.
  - simpl. by rewrite app_nil_r.
  - simpl in Hnd. apply NoDup_cons in Hnd as [Hn Hnd].
    rewrite define_all_cons, IH by done. cbn [fst snd].
    rewrite diags_define, pedantic_define, clashes_define by done.
    rewrite <- app_assoc, clashes_cons. by destruct d.
Qed.

Lemma header_defs_nodup b1 b2 : NoDup (header_defs b1 b2).*1.
Proof. destruct b1, b2; by_compute. Qed.

Lemma diags_include_common st :
  diags (include_common st)
  = diags st ++ (if first_reading st
                 then clashes (pedantic st) (table st)
                        (header_defs (defined st "likely") (defined st "__DEBUG"))
                 else []).
Proof.
  destruct (first_reading st) eqn:Hr.
  - apply first_reading_spec in Hr as [Hg Ho].
    rewrite include_common_fresh by done.
    destruct (honours_once st).
    + rewrite define_all_mark_once. unfold mark_once. cbn [diags].
      apply diags_define_all, header_defs_nodup.
    + apply diags_define_all, header_defs_nodup.
  - rewrite app_nil_r, include_common_not_first by done.
    case_bool_decide; [done|]. by destruct (honours_once st).
Qed.

Lemma elem_of_raised strict tbl n def d :
  d ∈ raised strict tbl n def ↔
  (d = NamedVariadic n ∧ strict = true ∧ named_variadic (def_macro def) = true)
  ∨ (d = Redefined n ∧ ∃ old, tbl !! n = Some old ∧ old ≠ def).
Proof.
  unfold raised. rewrite elem_of_app. split.
  - intros [H|H].
    + left. destruct strict, (named_variadic (def_macro def)); simpl in H;
        try by apply elem_of_nil in H.
      by apply list_elem_of_singleton in H.
    + right. destruct (tbl !! n) as [old|]; [|by apply elem_of_nil in H].
      destruct (decide (old = def)); [by apply elem_of_nil in H|].
      apply list_elem_of_singleton in H. eauto.
  - intros [(-> & -> & ->)|(-> & old & -> & Hne)].
    + left. simpl. by apply list_elem_of_singleton.
    + right. rewrite decide_False by done. by apply list_elem_of_singleton.
Qed.

Lemma elem_of_clashes strict tbl ds d :
  d ∈ clashes strict tbl ds ↔ ∃ n def, (n, def) ∈ ds ∧ d ∈ raised strict tbl n def.
Proof.
  induction ds as [|[k e] ds IH].
  - split; [by intros ?%elem_of_nil|by intros (? & ? & ?%elem_of_nil & _)].
  - rewrite clashes_cons, elem_of_app, IH. simpl. split.
    + intros [H|(n & def & Hin & H)].
      * exists k, e. split; [by left|done].
      * exists n, def. split; [by right|done].
    + intros (n & def & [Heq|Hin]%elem_of_cons & H).
      * injection Heq as -> ->. by left.
      * right. eauto.
Qed.

(** Line 25 is the one definition of the header with a named variable
    parameter. *)
Lemma header_named_variadic b1 b2 n def :
  (n, def) ∈ header_defs b1 b2 → named_variadic (def_macro def) = true →
  n = "DEBUG" ∧ b2 = true.
Proof.
  intros Hin Hv.
  assert (Forall (λ d, named_variadic (def_macro d.2) = true → d.1 = "DEBUG" ∧ b2 = true)
            (header_defs b1 b2)) as Hall by (destruct b1, b2; by_compute).
  by apply (proj1 (Forall_forall _ _) Hall (n, def)).
Qed.

(** *** The names the header defines, and tokens that are no macros *)

Lemma header_defs_names b1 b2 n m :
  (n, m) ∈ header_defs b1 b2 → n ∈ "COMMON_HPP" :: interface_names.
Proof.
  intros Hin.
  assert (Forall (λ d, d.1 ∈ "COMMON_HPP" :: interface_names) (header_defs b1 b2)) as Hall
    by (destruct b1, b2; by_compute).
  by apply (proj1 (Forall_forall _ _) Hall (n, m)).
Qed.

Lemma undefined_in_list (st : pp_state) names k :
  forallb (λ n, negb (defined st n)) names = true → k ∈ names → defined st k = false.
Proof.
  intros H Hk. rewrite forallb_forall in H.
  apply negb_true_iff, H. by apply list_elem_of_In.
Qed.

Lemma inertb_ident_none env s hs :
  s ≠ "__FILE__" → s ≠ "__LINE__" → env !! s = None →
  inertb env (Ident s, hs) = true.
Proof.
  intros H1 H2 He. unfold inertb. simpl. apply orb_true_iff. right.
  rewrite !bool_decide_eq_false_2, bool_decide_eq_true_2 by done. done.
Qed.

(** *** Expansions *)

Section Expansions.
Context (env : gmap string macro) (loc : location).

(** An object-like macro whose replacement list is copied as it stands
    and holds no macro name. *)
Lemma preprocess_object s body f :
  s ≠ "__FILE__" → s ≠ "__LINE__" →
  env !! s = Some (ObjectLike body) →
  (∀ exp, subst exp [] None body = Some (fresh body)) →
  forallb (inertb env) (fresh body) = true →
  (length body + 2 ≤ f)%nat →
  preprocess f env loc [Ident s] = Some body.
Proof.
  intros H1 H2 He Hs Hi Hf. unfold preprocess. cbn [fresh map].
  destruct f as [|f]; [lia|].
  erewrite expand_object; [|done|done|done|exact He].
  cbn [invoke]. rewrite Hs. cbn [mbind option_bind].
  rewrite app_nil_r, expand_inert.
  - simpl. by rewrite strip_hsadd, strip_fresh.
  - by apply inert_hsadd.
  - rewrite length_hsadd, length_fresh. lia.
Qed.

Lemma aligned_call s f :
  env !! "ATTRIBUTE_ALIGNED" = Some aligned_def →
  env !! "__attribute__" = None → env !! "aligned" = None →
  one_arg s = true → forallb (inertb env) (fresh s) = true →
  (length s + 10 ≤ f)%nat →
  preprocess f env loc (call "ATTRIBUTE_ALIGNED" [s])
  = Some (attribute ([Ident "aligned"; Punct LParen] ++ s ++ [Punct RParen])).
Proof.
  intros He Ha Hal Hx Hi Hf. unfold preprocess.
  destruct f as [|f]; [lia|].
  rewrite <- (app_nil_r (fresh _)).
  erewrite expand_call; [|discriminate|discriminate|exact He|by simpl; rewrite Hx].
  cbn [map]. erewrite invoke_aligned.
  2:{ apply expand_inert; [done|]. rewrite length_fresh. lia. }
  cbn [mbind option_bind]. rewrite app_nil_r, expand_inert.
  - simpl. rewrite strip_hsadd, !strip_app, !strip_fresh.
    unfold attribute. simpl. by rewrite <- !app_assoc.
  - apply inert_hsadd. repeat apply forallb_app_true; try done.
    unfold inertb. simpl. by rewrite Ha, Hal.
  - rewrite length_hsadd, !length_app, !length_fresh. simpl. lia.
Qed.

(** A macro of one parameter invoked with two or more arguments: the
    invocation is ill-formed, whatever the fuel. *)
Lemma call_arity_error s p body a b rest f :
  s ≠ "__FILE__" → s ≠ "__LINE__" →
  env !! s = Some (FunctionLike [p] NoVar body) →
  forallb one_arg (a :: b :: rest) = true →
  preprocess f env loc (call s (a :: b :: rest)) = None.
Proof.
  intros H1 H2 He Hw. unfold preprocess. destruct f as [|f]; [done|].
  rewrite <- (app_nil_r (fresh _)).
  erewrite expand_call; [|done|done|exact He|done].
  unfold invoke, bind_args. cbn [va_name map length].
  rewrite decide_False by lia. rewrite decide_False by (intros [? _]; done).
  done.
Qed.

Lemma bare_name s ps va body rest f :
  s ≠ "__FILE__" → s ≠ "__LINE__" →
  env !! s = Some (FunctionLike ps va body) →
  bool_decide (head rest = Some (Punct LParen)) = false →
  forallb (inertb env) (fresh rest) = true →
  (length rest + 2 ≤ f)%nat →
  preprocess f env loc (Ident s :: rest) = Some (Ident s :: rest).
Proof.
  intros H1 H2 He Hh Hi Hf. unfold preprocess. cbn [fresh map].
  destruct f as [|f]; [lia|].
  erewrite expand_bare; [|done|done|exact He|].
  - change (map (λ t, (t, [])) rest) with (fresh rest).
    rewrite expand_inert; [|done|rewrite length_fresh; lia].
    simpl. by rewrite strip_fresh.
  - apply bool_decide_eq_false. apply bool_decide_eq_false in Hh.
    intros E. apply Hh. by destruct rest.
Qed.

(** A hint applied to a macro that stands for a number. *)
Lemma hint_of_constant h c s n f :
  env !! h = Some (FunctionLike ["x"] NoVar
    [Ident "__builtin_expect"; Punct LParen; Punct Bang; Punct Bang;
     Punct LParen; Ident "x"; Punct RParen; Punct Comma; Number c; Punct RParen]) →
  h ≠ "__FILE__" → h ≠ "__LINE__" → s ≠ "__FILE__" → s ≠ "__LINE__" →
  env !! s = Some (ObjectLike [Number n]) →
  env !! "__builtin_expect" = None →
  (14 ≤ f)%nat →
  preprocess f env loc (call h [[Ident s]])
  = Some [Ident "__builtin_expect"; Punct LParen; Punct Bang; Punct Bang;
          Punct LParen; Number n; Punct RParen; Punct Comma; Number c; Punct RParen].
Proof.
  intros He Hh1 Hh2 Hs1 Hs2 Hs Hb Hf. unfold preprocess.
  destruct f as [|f]; [lia|].
  rewrite <- (app_nil_r (fresh _)).
  erewrite expand_call; [|done|done|exact He|done].
  cbn [map fresh]. unfold invoke. cbn [bind_args va_name length].
  rewrite decide_True by done. cbn [zip zip_with mbind option_bind].
  simpl subst.
  rewrite (expand_constant env loc s n [] f) by (done || lia).
  cbn [mbind option_bind app].
  rewrite app_nil_r, expand_inert.
  - reflexivity.
  - unfold inertb. simpl. rewrite Hb, andb_true_r.
    apply orb_true_iff. right. by apply bool_decide_eq_true.
  - simpl. lia.
Qed.

End Expansions.

(** *** Values of the hints *)

(** [likely(x)] evaluates exactly when [x] does. *)
Lemma eval_hint lib x c σ :
  eval lib (ECall "__builtin_expect" [ENot (ENot (EParen x)); EConst c]) σ
  = match eval lib x σ with
    | Some (v, σ') => Some (VInt (if truth v then 1 else 0), σ')
    | None => None
    end.
Proof.
  destruct (eval lib x σ) as [[v σ']|] eqn:E.
  - by apply eval_builtin_expect, eval_not_not.
  - simpl. by rewrite E.
Qed.

End ExtraFacts.

Import ExtraFacts.


(** X1.  Lines 11 to 14: after a first reading, where the words of the
    attributes are not macros themselves, [ATTRIBUTE_NEVER_INLINE]
    preprocesses to [__attribute__((noinline))], [ATTRIBUTE_ALWAYS_INLINE]
    to [__attribute__((always_inline))], [ATTRIBUTE_HIDDEN] to
    [__attribute__((visibility("hidden")))] and [ATTRIBUTE_EXPORT] to
    [__attribute__((visibility("default")))]. *)
Theorem attribute_wrappers st loc fuel :
  first_reading st = true →
  forallb (λ n, negb (defined st n))
    ["__attribute__"; "noinline"; "always_inline"; "visibility"] = true →
  (11 ≤ fuel)%nat →
  let env := macros (include_common st) in
  preprocess fuel env loc [Ident "ATTRIBUTE_NEVER_INLINE"]
  = Some (attribute [Ident "noinline"])
  ∧ preprocess fuel env loc [Ident "ATTRIBUTE_ALWAYS_INLINE"]
    = Some (attribute [Ident "always_inline"])
  ∧ preprocess fuel env loc [Ident "ATTRIBUTE_HIDDEN"]
    = Some (attribute [Ident "visibility"; Punct LParen; StrLit "hidden"; Punct RParen])
  ∧ preprocess fuel env loc [Ident "ATTRIBUTE_EXPORT"]
    = Some (attribute [Ident "visibility"; Punct LParen; StrLit "default"; Punct RParen]).
Proof.
  intros Hr Hu Hf env.
  assert (∀ k, k ∈ ["__attribute__"; "noinline"; "always_inline"; "visibility"] →
               env !! k = None) as Hn.
  { intros k Hk. apply untouched; [revert Hk; revert k|by eapply undefined_in_list].
    apply Forall_forall. by_compute. }
  assert (env !! "__attribute__" = None) as H1 by (apply Hn; by_compute).
  assert (env !! "noinline" = None) as H2 by (apply Hn; by_compute).
  assert (env !! "always_inline" = None) as H3 by (apply Hn; by_compute).
  assert (env !! "visibility" = None) as H4 by (apply Hn; by_compute).
  repeat split.
  all: apply preprocess_object;
    [discriminate | discriminate | apply plain_entry; [done|by_compute]
    | intros; reflexivity
    | cbn [attribute app fresh map forallb];
      rewrite !inertb_ident_none by (done || discriminate); reflexivity
    | simpl; lia ].
Qed.

Lemma attribute_wrappers_witness :
  let env := macros (include_common (empty_unit true)) in
  let loc := Loc "main.cpp" 1 in
  preprocess 11 env loc [Ident "ATTRIBUTE_NEVER_INLINE"]
  = Some [Ident "__attribute__"; Punct LParen; Punct LParen; Ident "noinline";
          Punct RParen; Punct RParen]
  ∧ preprocess 11 env loc [Ident "ATTRIBUTE_ALWAYS_INLINE"]
    = Some [Ident "__attribute__"; Punct LParen; Punct LParen; Ident "always_inline";
            Punct RParen; Punct RParen]
  ∧ preprocess 11 env loc [Ident "ATTRIBUTE_HIDDEN"]
    = Some [Ident "__attribute__"; Punct LParen; Punct LParen; Ident "visibility";
            Punct LParen; StrLit "hidden"; Punct RParen; Punct RParen; Punct RParen]
  ∧ preprocess 11 env loc [Ident "ATTRIBUTE_EXPORT"]
    = Some [Ident "__attribute__"; Punct LParen; Punct LParen; Ident "visibility";
            Punct LParen; StrLit "default"; Punct RParen; Punct RParen; Punct RParen].
Proof.
  intros env loc.
  apply (attribute_wrappers (empty_unit true) loc 11); vm_compute; first [reflexivity|lia].
Defined.

(** X2.  Line 15: for every argument [s], [ATTRIBUTE_ALIGNED(s)] is
    replaced by [__attribute__((aligned(s)))] with the expanded argument
    in the place of [s]; when [__attribute__] and [aligned] are not
    macros and [s] holds no macro name, these are the tokens the
    invocation preprocesses to. *)
Theorem aligned_of_argument st loc fuel s exp s' :
  first_reading st = true → one_arg s = true → exp (fresh s) = Some s' →
  let env := macros (include_common st) in
  env !! "ATTRIBUTE_ALIGNED" = Some aligned_def
  ∧ invoke exp aligned_def [fresh s]
    = Some (fresh [Ident "__attribute__"; Punct LParen; Punct LParen;
                   Ident "aligned"; Punct LParen]
            ++ s' ++ fresh [Punct RParen; Punct RParen; Punct RParen])
  ∧ (defined st "__attribute__" = false → defined st "aligned" = false →
     forallb (inertb env) (fresh s) = true → (length s + 10 ≤ fuel)%nat →
     preprocess fuel env loc (call "ATTRIBUTE_ALIGNED" [s])
     = Some (attribute ([Ident "aligned"; Punct LParen] ++ s ++ [Punct RParen]))).
Proof.
  intros Hr Hs Hexp env.
  assert (env !! "ATTRIBUTE_ALIGNED" = Some aligned_def) as He
    by (apply plain_entry; [done|by_compute]).
  split; [done|]. split; [by apply invoke_aligned|].
  intros Ha Hal Hi Hf. apply aligned_call; try done.
  - apply untouched; [by_compute|done].
  - apply untouched; [by_compute|done].
Qed.

Lemma aligned_of_argument_witness :
  let env := macros (include_common (empty_unit true)) in
  preprocess 13 env (Loc "main.cpp" 1)
    (call "ATTRIBUTE_ALIGNED" [[Number 2; Punct (Op "*"); Number 8]])
  = Some [Ident "__attribute__"; Punct LParen; Punct LParen; Ident "aligned";
          Punct LParen; Number 2; Punct (Op "*"); Number 8;
          Punct RParen; Punct RParen; Punct RParen].
Proof.
  intros env.
  refine (proj2 (proj2 (aligned_of_argument (empty_unit true) (Loc "main.cpp" 1) 13
     [Number 2; Punct (Op "*"); Number 8] Some _ _ _ _)) _ _ _ _);
    vm_compute; first [reflexivity|lia].
Defined.

(** X3.  Lines 7, 8 and 15: [likely], [unlikely] and
    [ATTRIBUTE_ALIGNED] take exactly one argument.  An invocation with
    two or more arguments is ill-formed: it has no expansion, however
    much fuel the expander is given. *)
Theorem one_parameter_macros_reject_more st loc fuel name a b rest :
  first_reading st = true → defined st "likely" = false →
  name ∈ ["likely"; "unlikely"; "ATTRIBUTE_ALIGNED"] →
  forallb one_arg (a :: b :: rest) = true →
  preprocess fuel (macros (include_common st)) loc (call name (a :: b :: rest)) = None.
Proof.
  intros Hr Hl Hn Hw.
  destruct (hint_entries st Hr Hl) as [H1 H2].
  assert (macros (include_common st) !! "ATTRIBUTE_ALIGNED" = Some aligned_def) as H3
    by (apply plain_entry; [done|by_compute]).
  repeat (apply elem_of_cons in Hn as [->|Hn]);
    [ | | |by apply elem_of_nil in Hn];
    eapply call_arity_error; try done.
Qed.

Lemma one_parameter_macros_reject_more_witness :
  preprocess 100 (macros (include_common (empty_unit true))) (Loc "main.cpp" 1)
    (call "likely" [[Ident "a"]; [Ident "b"]]) = None.
Proof.
  apply (one_parameter_macros_reject_more (empty_unit true) (Loc "main.cpp" 1) 100
           "likely" [Ident "a"] [Ident "b"] []); try (vm_compute; reflexivity).
  by_compute.
Defined.

(** X4.  The four function-like macros of the header are invoked only
    by a following parenthesis: the bare name [likely], [unlikely],
    [ATTRIBUTE_ALIGNED] or [DEBUG], followed by anything else (or by
    nothing), is left in the text as it is. *)
Theorem function_like_names_stay st loc fuel name rest :
  first_reading st = true → defined st "likely" = false →
  name ∈ ["likely"; "unlikely"; "ATTRIBUTE_ALIGNED"; "DEBUG"] →
  bool_decide (head rest = Some (Punct LParen)) = false →
  forallb (inertb (macros (include_common st))) (fresh rest) = true →
  (length rest + 2 ≤ fuel)%nat →
  preprocess fuel (macros (include_common st)) loc (Ident name :: rest)
  = Some (Ident name :: rest).
Proof.
  intros Hr Hl Hn Hh Hi Hf.
  destruct (hint_entries st Hr Hl) as [H1 H2].
  assert (macros (include_common st) !! "ATTRIBUTE_ALIGNED" = Some aligned_def) as H3
    by (apply plain_entry; [done|by_compute]).
  pose proof (debug_entry st Hr) as H4.
  repeat (apply elem_of_cons in Hn as [->|Hn]);
    [ | | | |by apply elem_of_nil in Hn].
  - eapply bare_name; try done.
  - eapply bare_name; try done.
  - eapply bare_name; try done.
  - destruct (defined st "__DEBUG"); eapply bare_name; try done.
Qed.

Lemma function_like_names_stay_witness :
  preprocess 3 (macros (include_common (empty_unit true))) (Loc "main.cpp" 1)
    [Ident "DEBUG"; Punct Semi] = Some [Ident "DEBUG"; Punct Semi].
Proof.
  apply (function_like_names_stay (empty_unit true) (Loc "main.cpp" 1) 3
           "DEBUG" [Punct Semi]); try (vm_compute; reflexivity).
  by_compute.
Defined.

(** X5.  The diagnostics of an inclusion.  The earlier diagnostics are
    kept, in order.  What a first reading adds is [Redefined n], exactly
    for every name [n] the header defines in this reading that already
    has a definition which is not the same (in parameters, in tokens and
    their spelling, or in white-space separation), and, exactly when the
    compiler is pedantic and [__DEBUG] is defined, the report of the
    named variable parameter of line 25.  Nothing is ever reported about
    the conditionals, and a later reading adds nothing. *)
Theorem inclusion_diagnostics st :
  ∃ new,
    diags (include_common st) = diags st ++ new
    ∧ ∀ d, d ∈ new ↔
        first_reading st = true
        ∧ ((∃ n def old,
              d = Redefined n
              ∧ (n, def) ∈ header_defs (defined st "likely") (defined st "__DEBUG")
              ∧ table st !! n = Some old ∧ old ≠ def)
           ∨ (d = NamedVariadic "DEBUG"
              ∧ pedantic st = true ∧ defined st "__DEBUG" = true)).
Proof.
  eexists. split; [apply diags_include_common|].
  intros d. destruct (first_reading st).
  2:{ split; [by intros ?%elem_of_nil|by intros [? _]]. }
  rewrite elem_of_clashes. split.
  - intros (n & def & Hin & [(-> & Hp & Hv)|(-> & old & Ho & Hne)]%elem_of_raised);
      (split; [done|]).
    + right. by destruct (header_named_variadic _ _ _ _ Hin Hv) as [-> ->].
    + left. by exists n, def, old.
  - intros [_ [(n & def & old & -> & Hin & Ho & Hne)|(-> & Hp & Hd)]].
    + exists n, def. split; [done|]. apply elem_of_raised. right. eauto.
    + exists "DEBUG", (Def debug_on_def debug_on_gaps). split.
      * rewrite Hd. destruct (defined st "likely"); by_compute.
      * apply elem_of_raised. by left.
Qed.

Lemma inclusion_diagnostics_witness :
  let hex := define "CACHELINE_SIZE" (ObjectLike [PPNumber "0x40"]) [] (empty_unit true) in
  let tight :=
    define "unlikely" unlikely_def
      [false; false; false; false; false; false; false; false; false]
      (empty_unit true) in
  Redefined "CACHELINE_SIZE" ∈ diags (include_common hex)
  ∧ Redefined "unlikely" ∈ diags (include_common tight).
Proof.
  intros hex tight. split.
  - destruct (inclusion_diagnostics hex) as (new & -> & H).
    apply elem_of_app. right. apply H. split; [vm_compute; reflexivity|]. left.
    exists "CACHELINE_SIZE", (Def cacheline_size_def []),
           (Def (ObjectLike [PPNumber "0x40"]) []).
    split; [reflexivity|]. split; [by_compute|].
    split; [vm_compute; reflexivity|discriminate].
  - destruct (inclusion_diagnostics tight) as (new & -> & H).
    apply elem_of_app. right. apply H. split; [vm_compute; reflexivity|]. left.
    exists "unlikely", (Def unlikely_def hint_gaps),
           (Def unlikely_def
              [false; false; false; false; false; false; false; false; false]).
    split; [reflexivity|]. split; [by_compute|].
    split; [vm_compute; reflexivity|discriminate].
Defined.

(** X6.  Where none of the thirteen interface names is defined, and the
    compiler is not pedantic or [__DEBUG] is not defined, an inclusion
    adds none of the diagnostics of macro definitions and conditionals:
    no redefinition, no named variable parameter, no unbalanced
    conditional. *)
Theorem clean_inclusion_silent st :
  forallb (λ n, negb (defined st n)) interface_names = true →
  pedantic st && defined st "__DEBUG" = false →
  diags (include_common st) = diags st.
Proof.
  intros Hu Hp. rewrite diags_include_common.
  destruct (first_reading st) eqn:Hr; [|by rewrite app_nil_r].
  destruct (clashes _ _ _) as [|d l] eqn:E; [by rewrite app_nil_r|]. exfalso.
  assert (d ∈ d :: l) as Hd by left. rewrite <- E in Hd.
  apply elem_of_clashes in Hd
    as (n & def & Hin & [(-> & P & V)|(-> & old & Hold & Hne)]%elem_of_raised).
  - destruct (header_named_variadic _ _ _ _ Hin V) as [_ D]. by rewrite P, D in Hp.
  - assert (defined st n = false) as Hd.
    { apply header_defs_names, elem_of_cons in Hin as [->|Hin].
      - by apply first_reading_spec in Hr as [Hg _].
      - by eapply undefined_in_list. }
    apply defined_false, macros_table_None in Hd. congruence.
Qed.

Lemma clean_inclusion_silent_witness :
  diags (include_common (empty_unit false)) = [].
Proof.
  apply (clean_inclusion_silent (empty_unit false)); vm_compute; reflexivity.
Defined.

(** X7.  Line 1: an inclusion marks the file as read once exactly when
    the compiler implements [#pragma once] (also when the guard symbol
    makes it skip the rest of the file); it marks no other file, and does
    not change whether the pragma is implemented. *)
Theorem once_mark st :
  once_files (include_common st)
  = (if honours_once st then {[file_name]} ∪ once_files st else once_files st)
  ∧ honours_once (include_common st) = honours_once st.
Proof.
  split; [|apply honours_once_include].
  destruct (first_reading st) eqn:Hr.
  - apply first_reading_spec in Hr as [Hg Ho].
    rewrite include_common_fresh, once_files_define_all by done.
    by destruct (honours_once st).
  - rewrite include_common_not_first by done.
    case_bool_decide as Ho; destruct (honours_once st) eqn:E; try done.
    apply leibniz_equiv. set_solver.
Qed.

(** X8.  In every state, first reading or not, an inclusion never
    undefines a macro, and never changes the meaning of a name other than
    the guard symbol and the thirteen interface names. *)
Theorem inclusion_never_undefines st :
  dom (macros st) ⊆ dom (macros (include_common st))
  ∧ ∀ k, k ∉ "COMMON_HPP" :: interface_names →
         macros (include_common st) !! k = macros st !! k.
Proof.
  split; [|intros k Hk; by apply macros_include_common_other].
  destruct (first_reading st) eqn:Hr.
  - apply first_reading_spec in Hr as [Hg Ho].
    rewrite macros_include_common_fresh, dom_define_all by done.
    apply union_subseteq_r.
  - rewrite include_common_not_first by done.
    case_bool_decide; [done|]. by destruct (honours_once st).
Qed.

Lemma inclusion_never_undefines_witness :
  let st := define "__DEBUG" (ObjectLike []) [] (empty_unit true) in
  macros (include_common st) !! "__DEBUG" = Some (ObjectLike []).
Proof.
  intros st.
  refine (proj2 (inclusion_never_undefines st) "__DEBUG" _). by_compute.
Defined.

(** X9.  Line 25 with no variable argument, in a debug build.  When it
    is omitted, [DEBUG(format)], the [##] removes the comma before it and
    the invocation preprocesses to
    [printf("FILE: " <file> ", LINE: %d: " format "\n", <line>)].  When
    it is present but empty, [DEBUG(format,)], the comma stays and the
    invocation preprocesses to
    [printf("FILE: " <file> ", LINE: %d: " format "\n", <line>,)], an
    argument list that ends in a comma. *)
Theorem debug_without_arguments st loc fuel fmt :
  first_reading st = true → defined st "__DEBUG" = true →
  defined st "printf" = false →
  one_arg fmt = true →
  forallb (inertb (macros (include_common st))) (fresh fmt) = true →
  (length fmt + 16 ≤ fuel)%nat →
  let env := macros (include_common st) in
  let printed :=
    [Ident "printf"; Punct LParen; StrLit "FILE: "; StrLit (cur_file loc);
     StrLit ", LINE: %d: "] ++ fmt
    ++ [StrLit "\n"; Punct Comma; Number (cur_line loc)] in
  preprocess fuel env loc (call "DEBUG" [fmt]) = Some (printed ++ [Punct RParen])
  ∧ preprocess fuel env loc (call "DEBUG" [fmt; []])
    = Some (printed ++ [Punct Comma; Punct RParen]).
Proof.
  intros Hr Hd Hp Hw Hi Hf env printed.
  pose proof (debug_entry st Hr) as He. rewrite Hd in He.
  assert (env !! "printf" = None) as Hp' by (apply untouched; [by_compute|done]).
  assert (length (call "DEBUG" [fmt]) = length fmt + 3)%nat as L1.
  { unfold call. simpl. rewrite length_app, strip_fresh. simpl. lia. }
  assert (length (call "DEBUG" [fmt; []]) = length fmt + 4)%nat as L2.
  { unfold call. simpl. rewrite length_app, strip_app, length_app, strip_fresh. simpl. lia. }
  assert (forallb one_arg [fmt] = true) as W1 by (cbn [forallb]; by rewrite Hw).
  assert (forallb one_arg [fmt; []] = true) as W2 by (cbn [forallb]; by rewrite Hw).
  assert (forallb (λ a, forallb (inertb env) (fresh a)) [fmt] = true) as I1
    by (cbn [forallb]; unfold env; by rewrite Hi).
  assert (forallb (λ a, forallb (inertb env) (fresh a)) [fmt; []] = true) as I2
    by (cbn [forallb]; unfold env; by rewrite Hi).
  split.
  - rewrite (debug_on_call env loc fmt [] fuel He Hp' W1 I1) by lia.
    unfold printed. simpl. by rewrite <- !app_assoc.
  - rewrite (debug_on_call env loc fmt [[]] fuel He Hp' W2 I2) by lia.
    unfold printed. simpl. by rewrite <- !app_assoc.
Qed.

Lemma debug_without_arguments_witness :
  let st := define "__DEBUG" (ObjectLike []) [] (empty_unit true) in
  let env := macros (include_common st) in
  preprocess 17 env (Loc "main.cpp" 7) (call "DEBUG" [[StrLit "started"]])
  = Some [Ident "printf"; Punct LParen; StrLit "FILE: "; StrLit "main.cpp";
          StrLit ", LINE: %d: "; StrLit "started"; StrLit "\n"; Punct Comma;
          Number 7; Punct RParen]
  ∧ preprocess 17 env (Loc "main.cpp" 7) (call "DEBUG" [[StrLit "started"]; []])
    = Some [Ident "printf"; Punct LParen; StrLit "FILE: "; StrLit "main.cpp";
            StrLit ", LINE: %d: "; StrLit "started"; StrLit "\n"; Punct Comma;
            Number 7; Punct Comma; Punct RParen].
Proof.
  intros st env.
  apply (debug_without_arguments st (Loc "main.cpp" 7) 17 [StrLit "started"]);
    vm_compute; first [reflexivity|lia].
Defined.

(** X10.  [likely(x)] has a value exactly when [x] has one: it fails
    when the evaluation of [x] fails, and otherwise gives 1 or 0 by the
    truth of the value of [x], in the state [x] leaves; [unlikely(x)]
    behaves in the same way in every case. *)
Theorem hints_evaluate_with_argument lib x σ :
  eval lib (likely x) σ
  = match eval lib x σ with
    | Some (v, σ') => Some (VInt (if truth v then 1 else 0), σ')
    | None => None
    end
  ∧ eval lib (unlikely x) σ = eval lib (likely x) σ.
Proof.
  unfold likely, unlikely. by rewrite !eval_hint.
Qed.

(** X11.  The hints compose: a hint applied to a hint, in any of the
    four combinations, behaves as a single [likely]. *)
Theorem hints_compose lib x σ :
  eval lib (likely (likely x)) σ = eval lib (likely x) σ
  ∧ eval lib (likely (unlikely x)) σ = eval lib (likely x) σ
  ∧ eval lib (unlikely (likely x)) σ = eval lib (likely x) σ
  ∧ eval lib (unlikely (unlikely x)) σ = eval lib (likely x) σ.
Proof.
  unfold likely, unlikely. repeat split; rewrite !eval_hint;
    destruct (eval lib x σ) as [[v σ']|]; try done; by destruct (truth v).
Qed.

(** X12.  A hint applied to one of the header's numeric macros
    ([CACHELINE_SIZE], [USE_COMPRESSED_PTRS], [USE_SIZE_CACHES]): the
    argument is expanded to its number [n] before it is substituted, so
    [likely(NAME)] preprocesses to the spelling of
    [__builtin_expect(!!(n), 1)], which evaluates to 0 for the two flags
    (they are 0) and to 1 for the cache line size. *)
Theorem hint_of_header_constant st loc fuel lib σ s n :
  first_reading st = true → defined st "likely" = false →
  defined st "__builtin_expect" = false →
  (s, n) ∈ [("CACHELINE_SIZE", 64); ("USE_COMPRESSED_PTRS", 0); ("USE_SIZE_CACHES", 0)] →
  (14 ≤ fuel)%nat →
  let env := macros (include_common st) in
  preprocess fuel env loc (call "likely" [[Ident s]]) = Some (print_expr (likely (EConst n)))
  ∧ preprocess fuel env loc (call "unlikely" [[Ident s]])
    = Some (print_expr (unlikely (EConst n)))
  ∧ eval lib (likely (EConst n)) σ = Some (VInt (if Z.eqb n 0 then 0 else 1), σ)
  ∧ eval lib (unlikely (EConst n)) σ = Some (VInt (if Z.eqb n 0 then 0 else 1), σ).
Proof.
  intros Hr Hl Hb Hin Hf env.
  destruct (hint_entries st Hr Hl) as [H1 H2].
  assert (env !! "__builtin_expect" = None) as Hb'
    by (apply untouched; [by_compute|done]).
  assert (env !! s = Some (ObjectLike [Number n]) ∧ s ≠ "__FILE__" ∧ s ≠ "__LINE__")
    as (Hs & Hs1 & Hs2).
  { repeat (apply elem_of_cons in Hin as [Heq|Hin]);
      [ | | |by apply elem_of_nil in Hin]; injection Heq as -> ->;
      (split; [apply plain_entry; [done|by_compute]|done]). }
  split; [by eapply hint_of_constant|]. split; [by eapply hint_of_constant|].
  unfold likely, unlikely. rewrite !eval_hint. simpl.
  by destruct (Z.eqb n 0).
Qed.

Lemma hint_of_header_constant_witness :
  let env := macros (include_common (empty_unit true)) in
  let σ := Machine ∅ [] in
  let lib : library := λ _ _ _, None in
  preprocess 14 env (Loc "main.cpp" 1) (call "likely" [[Ident "USE_SIZE_CACHES"]])
  = Some [Ident "__builtin_expect"; Punct LParen; Punct Bang; Punct Bang; Punct LParen;
          Number 0; Punct RParen; Punct Comma; Number 1; Punct RParen]
  ∧ eval lib (likely (EConst 0)) σ = Some (VInt 0, σ).
Proof.
  intros env σ lib.
  destruct (hint_of_header_constant (empty_unit true) (Loc "main.cpp" 1) 14 lib σ
              "USE_SIZE_CACHES" 0) as (H1 & _ & H2 & _);
    try (vm_compute; reflexivity); [by_compute|].
  split; [exact H1|exact H2].
Defined.
